(** * grafo.py: adjacency-map graph (class [Grafo])

    A shallow embedding of the class [Grafo] of [src/grafo.py] and of its
    inner classes [Vertice] and [Aresta].

    Python objects have an identity, and the class relies on it three times:
    vertices are dictionary keys hashed by [id(self)] and compared by
    identity, edges define [__hash__] but no [__eq__] (so [==] on edges is
    identity), and an undirected graph stores ONE dictionary object under
    two attributes.  The embedding therefore keeps a heap: every object
    creation draws a fresh reference, the two attributes of the graph hold
    references to dictionary objects, and a vertex is its reference. *)

From Stdlib Require Import Ascii.
From stdpp Require Import gmap strings list fin_maps.

#[local] Set Warnings "-clear-no-such-hyp".

(** ** Values and objects *)

(** [id(obj)]: the identity of an object. *)
Definition ref := positive.

(** The payloads a caller hands to [inserir_vertice] and [inserir_aresta];
    the class never inspects them. *)
Inductive valor : Type :=
  | VNone
  | VInt (n : Z)
  | VStr (s : string).

(** [class Vertice], [__slots__ = '_elemento', '_visitado'].  A value of
    type [Vertice] is a reference to such an object. *)
Record VerticeObj : Type := mkVerticeObj {
  _elemento : valor;
  _visitado : bool
}.

Abbreviation Vertice := ref.

(** [class Aresta], [__slots__ = '_origem', '_destino', '_peso'].  No method
    assigns a slot after [__init__], so an edge object is the immutable
    record of its slots together with its own identity [a_id]. *)
Record Aresta : Type := mkAresta {
  a_id : ref;
  _origem : Vertice;
  _destino : Vertice;
  _peso : valor
}.

(** [Aresta.vertices]: [return (self._origem, self._destino)]. *)
Definition Aresta_vertices (a : Aresta) : Vertice * Vertice :=
  (_origem a, _destino a).

(** [Aresta.oposto]:
    [return self._destino if v is self._origem else self._origem]. *)
Definition oposto (a : Aresta) (v : Vertice) : Vertice :=
  if decide (v = _origem a) then _destino a else _origem a.

(** [Aresta.peso]: [return self._peso]. *)
Definition peso (a : Aresta) : valor := _peso a.

(** [Aresta] defines no [__eq__]: [a == b] is [object.__eq__], that is
    [a is b]. *)
Definition Aresta_is (a b : Aresta) : bool := bool_decide (a_id a = a_id b).
Definition Aresta_eq (a b : Aresta) : bool := Aresta_is a b.

(** The builtin [hash] is not part of the repository: its value on an
    integer and on a tuple (computed from the hashes of the components) are
    taken as parameters. *)
Section Hash.
Variable hash_int : Z → Z.
Variable hash_tuple : list Z → Z.

(** [id(v)] as a Python integer. *)
Definition py_id (r : ref) : Z := Z.pos r.

(** [Vertice.__hash__]: [return hash(id(self))]. *)
Definition Vertice_hash (v : Vertice) : Z := hash_int (py_id v).

(** [Aresta.__hash__]: [return hash((self._origem, self._destino))]. *)
Definition Aresta_hash (a : Aresta) : Z :=
  hash_tuple [Vertice_hash (_origem a); Vertice_hash (_destino a)].
End Hash.

(** ** The heap and the graph object *)

(** A secondary map [{neighbour: edge}] and an adjacency map
    [{vertex: secondary map}].  Keys are vertices, hashed by identity and
    compared by identity.  A secondary map is created by [inserir_vertice]
    and stored in exactly one slot of one adjacency map, so it is kept as
    the value of that slot; the adjacency maps are heap objects, because
    the two attributes of a graph may name the same one. *)

Record Heap : Type := mkHeap {
  dicts : gmap ref (gmap ref (gmap ref Aresta));
  objetos : gmap ref VerticeObj;
  prox : ref                  (* the next identity to hand out *)
}.

(** The dictionary a reference names.  Every reference the methods
    dereference was set by the constructor; a reference that names nothing
    reads as the empty dictionary. *)
Definition deref (h : Heap) (d : ref) : gmap ref (gmap ref Aresta) :=
  dicts h !!! d.

(** [class Grafo]: the attributes [_saida] and [_entrada] of [self], and
    the heap their references live in. *)
Record Grafo : Type := mkGrafo {
  _saida : ref;
  _entrada : ref;
  heap : Heap
}.

(** [self._saida] and [self._entrada], dereferenced. *)
Definition saida (g : Grafo) : gmap ref (gmap ref Aresta) :=
  deref (heap g) (_saida g).
Definition entrada (g : Grafo) : gmap ref (gmap ref Aresta) :=
  deref (heap g) (_entrada g).

(** ** Exceptions and the monad of methods

    A method transforms the state and either returns or raises.  The state
    reached when an exception is raised is kept: Python does not roll
    back the statements already executed. *)
Inductive excecao : Type :=
  | KeyError (k : ref).

Inductive resultado (A : Type) : Type :=
  | Retorna (a : A)
  | Levanta (e : excecao).
Arguments Retorna {A} a.
Arguments Levanta {A} e.

Definition M (A : Type) : Type := Grafo → resultado A * Grafo.

#[export] Instance M_ret : MRet M := λ A a g, (Retorna a, g).

#[export] Instance M_bind : MBind M := λ A B k m g,
  match m g with
  | (Retorna a, g') => k a g'
  | (Levanta e, g') => (Levanta e, g')
  end.

(** Reading [self]: an attribute, or a method that only reads. *)
Definition leia {A} (f : Grafo → A) : M A := λ g, (Retorna (f g), g).

(** The heap changes: an identity is consumed, a vertex object is stored,
    [d[k] = m] on the adjacency map named [d]. *)
Definition avanca (h : Heap) : Heap :=
  mkHeap (dicts h) (objetos h) (Pos.succ (prox h)).

Definition guarda (r : ref) (o : VerticeObj) (h : Heap) : Heap :=
  mkHeap (dicts h) (<[r := o]> (objetos h)) (prox h).

Definition grava (d : ref) (k : Vertice) (m : gmap ref Aresta) (h : Heap)
  : Heap :=
  mkHeap (<[d := <[k := m]> (deref h d)]> (dicts h)) (objetos h) (prox h).

Definition no_heap (f : Heap → Heap) (g : Grafo) : Grafo :=
  mkGrafo (_saida g) (_entrada g) (f (heap g)).

Definition com_heap (f : Heap → Heap) : M unit :=
  λ g, (Retorna tt, no_heap f g).

(** A fresh identity. *)
Definition aloca : M ref :=
  λ g, (Retorna (prox (heap g)), no_heap avanca g).

(** [Vertice(x)]: [self._visitado = False; self._elemento = e]. *)
Definition Vertice_init (x : valor) : M Vertice :=
  r ← aloca;
  com_heap (guarda r (mkVerticeObj x false));;
  mret r.

(** [Aresta(origem, destino, peso)]. *)
Definition Aresta_init (origem destino : Vertice) (x : valor) : M Aresta :=
  r ← aloca;
  mret (mkAresta r origem destino x).

(** [Vertice.elemento]: [return self._elemento]. *)
Definition elemento (v : Vertice) (g : Grafo) : option valor :=
  _elemento <$> objetos (heap g) !! v.

(** [d[k]] on the adjacency map named [d]: [KeyError] when [k] is no key. *)
Definition getitem (d : ref) (k : Vertice) : M (gmap ref Aresta) :=
  λ g, match deref (heap g) d !! k with
       | Some m => (Retorna m, g)
       | None => (Levanta (KeyError k), g)
       end.

(** [d[k] = m] on the adjacency map named [d]. *)
Definition setitem (d : ref) (k : Vertice) (m : gmap ref Aresta) : M unit :=
  com_heap (grava d k m).

(** [d[u][v] = a]: the secondary map [d[u]] is fetched (this is what can
    raise) and mutated in place. *)
Definition setitem2 (d : ref) (u v : Vertice) (a : Aresta) : M unit :=
  m ← getitem d u;
  setitem d u (<[v := a]> m).

(** ** Methods of [Grafo] *)

(** [Grafo.__init__(self, direcionado=False)]:
    [self._saida = {}; self._entrada = {} if direcionado else self._saida].
    The constructor runs in a heap [h]. *)
Definition novo_dict (h : Heap) : ref * Heap :=
  (prox h, mkHeap (<[prox h := ∅]> (dicts h)) (objetos h) (Pos.succ (prox h))).

Definition Grafo_init (direcionado : bool) (h : Heap) : Grafo :=
  let '(s, h1) := novo_dict h in
  if direcionado
  then let '(e, h2) := novo_dict h1 in mkGrafo s e h2
  else mkGrafo s s h1.

(** [Grafo()]: the default argument. *)
Definition Grafo_init_padrao (h : Heap) : Grafo := Grafo_init false h.

(** A heap in which nothing has been created yet. *)
Definition heap_vazio : Heap := mkHeap ∅ ∅ 1%positive.

(** [e_direcionado]: [return self._entrada is not self._saida]. *)
Definition e_direcionado (g : Grafo) : bool :=
  negb (bool_decide (_entrada g = _saida g)).

(** [num_vertices]: [return len(self._saida)]. *)
Definition num_vertices (g : Grafo) : nat := size (saida g).

(** [vertices]: [return self._saida.keys()]. *)
Definition vertices (g : Grafo) : list Vertice := (map_to_list (saida g)).*1.

(** [num_arestas]:
    [total = sum(len(self._saida[v]) for v in self._saida)]
    [return total if self.e_direcionado() else total // 2]. *)
Definition soma_graus (d : gmap ref (gmap ref Aresta)) : nat :=
  sum_list_with (λ p, size p.2) (map_to_list d).

Definition num_arestas (g : Grafo) : nat :=
  let total := soma_graus (saida g) in
  if e_direcionado g then total else total `div` 2.

(** A Python [set] of edges.  Its elements are told apart by [==], which
    on edges is identity: the set is keyed by [a_id]. *)

(** [s.add(a)]: an element already present is kept. *)
Definition set_add (s : gmap ref Aresta) (a : Aresta) : gmap ref Aresta :=
  match s !! a_id a with
  | Some _ => s
  | None => <[a_id a := a]> s
  end.

(** [s.update(it)]. *)
Definition set_update (s : gmap ref Aresta) (l : list Aresta)
  : gmap ref Aresta :=
  foldl set_add s l.

(** [d.values()]. *)
Definition values {A} (d : gmap ref A) : list A := (map_to_list d).*2.

(** [arestas]:
    [resultado = set()]
    [for map_secundario in self._saida.values():]
    [    resultado.update(map_secundario.values())]
    [return resultado]. *)
Definition arestas (g : Grafo) : gmap ref Aresta :=
  foldl (λ res map_secundario, set_update res (values map_secundario))
        ∅ (values (saida g)).

(** [len(s)] of a set. *)
Definition len (s : gmap ref Aresta) : nat := size s.

(** [aresta]: [return self._saida[u].get(v)]; [None] is [None]. *)
Definition aresta (u v : Vertice) (g : Grafo) : resultado (option Aresta) :=
  match saida g !! u with
  | Some m => Retorna (m !! v)
  | None => Levanta (KeyError u)
  end.

(** [grau(self, v, saida=True)]:
    [adj = self._saida if saida else self._entrada; return len(adj[v])]. *)
Definition grau (v : Vertice) (de_saida : bool) (g : Grafo) : resultado nat :=
  let adj := if de_saida then saida g else entrada g in
  match adj !! v with
  | Some m => Retorna (size m)
  | None => Levanta (KeyError v)
  end.

(** [inserir_vertice(self, x=None)]:
    [v = self.Vertice(x)]
    [self._saida[v] = {}]
    [if self.e_direcionado(): self._entrada[v] = {}]
    [return v]. *)
Definition inserir_vertice (x : valor) : M Vertice :=
  v ← Vertice_init x;
  s ← leia _saida;
  setitem s v ∅;;
  d ← leia e_direcionado;
  (if d : bool then e ← leia _entrada; setitem e v ∅ else mret tt);;
  mret v.

(** [inserir_aresta(self, u, v, x=None)]:
    [a = self.Aresta(u, v, x)]
    [self._saida[u][v] = a]
    [self._entrada[v][u] = a]
    [return a]. *)
Definition inserir_aresta (u v : Vertice) (x : valor) : M Aresta :=
  a ← Aresta_init u v x;
  s ← leia _saida;
  setitem2 s u v a;;
  e ← leia _entrada;
  setitem2 e v u a;;
  mret a.

(** ** Vocabulary of the specification *)

(** The edge stored under [d[u][v]], if any. *)
Definition slot (d : gmap ref (gmap ref Aresta)) (u v : Vertice)
  : option Aresta :=
  d !! u ≫= λ m, m !! v.

(** [v] belongs to the graph: it has an entry in both adjacency maps (which
    are one map when the graph is undirected). *)
Definition pertence (g : Grafo) (v : Vertice) : Prop :=
  is_Some (saida g !! v) ∧ is_Some (entrada g !! v).

(** [v] is no vertex of the graph. *)
Definition alheio (g : Grafo) (v : Vertice) : Prop :=
  saida g !! v = None ∧ entrada g !! v = None.

(** An edge runs from [u] to [v]. *)
Definition adjacente (g : Grafo) (u v : Vertice) : Prop :=
  is_Some (slot (saida g) u v).

(** An edge is recorded as entering [v] from [u]. *)
Definition adjacente_entrada (g : Grafo) (v u : Vertice) : Prop :=
  is_Some (slot (entrada g) v u).

(** The calls that mutate a graph.  [executa] gives the state a call
    leaves, whether it returned or raised (the caller may catch the
    exception and go on). *)
Inductive chamada : Type :=
  | InserirVertice (x : valor)
  | InserirAresta (u v : Vertice) (x : valor).

Definition executa (g : Grafo) (c : chamada) : Grafo :=
  match c with
  | InserirVertice x => (inserir_vertice x g).2
  | InserirAresta u v x => (inserir_aresta u v x g).2
  end.

Definition executa_todas (cs : list chamada) (g : Grafo) : Grafo :=
  foldl executa g cs.

(** Graphs built by the constructor and a sequence of calls in which, when
    the graph is undirected, every [inserir_aresta] joins two distinct
    vertices of the graph (the class describes itself as a simple graph).
    For a directed graph every call is allowed, failing ones too. *)
Inductive construido : Grafo → Prop :=
  | construido_init direcionado h :
      construido (Grafo_init direcionado h)
  | construido_vertice g x :
      construido g → construido (inserir_vertice x g).2
  | construido_aresta g u v x :
      construido g →
      (e_direcionado g = false → pertence g u ∧ pertence g v ∧ u ≠ v) →
      construido (inserir_aresta u v x g).2.

(** All the slots of an adjacency map, as triples. *)
Definition slots (d : gmap ref (gmap ref Aresta))
  : list (Vertice * Vertice * Aresta) :=
  map_to_list d ≫= λ p, (λ q, (p.1, q.1, q.2)) <$> map_to_list p.2.

(** The identities of the edges stored in a list of slots. *)
Definition ids (l : list (Vertice * Vertice * Aresta)) : list ref :=
  (λ t, a_id t.2) <$> l.

(** ** Sample graphs *)

(** The demonstration at the end of the source file: an undirected graph
    with vertices a..f and edges (a,b), (a,c), (c,d), (b,d). *)
Definition grafo_exemplo_prog : M (list Vertice) :=
  v1 ← inserir_vertice (VStr "a");
  v2 ← inserir_vertice (VStr "b");
  v3 ← inserir_vertice (VStr "c");
  v4 ← inserir_vertice (VStr "d");
  v5 ← inserir_vertice (VStr "e");
  v6 ← inserir_vertice (VStr "f");
  inserir_aresta v1 v2 VNone;;
  inserir_aresta v1 v3 VNone;;
  inserir_aresta v3 v4 VNone;;
  inserir_aresta v2 v4 VNone;;
  mret [v1; v2; v3; v4; v5; v6].

Definition grafo_exemplo : Grafo :=
  (grafo_exemplo_prog (Grafo_init_padrao heap_vazio)).2.

(** A graph with two vertices and no edge.  In a heap where nothing was
    created before, the adjacency map takes identity 1 and the vertices are
    2 and 3 when the graph is undirected; the two adjacency maps take 1 and
    2 and the vertices are 3 and 4 when it is directed. *)
Definition dois_vertices_prog : M (Vertice * Vertice) :=
  u ← inserir_vertice (VStr "u");
  v ← inserir_vertice (VStr "v");
  mret (u, v).

Definition par (direcionado : bool) : Grafo :=
  (dois_vertices_prog (Grafo_init direcionado heap_vazio)).2.

(** ** Invariants of the adjacency map [_saida]

    [limitado]: every vertex and every stored edge was created before the
    next identity.  [injetivo]: two slots hold the same edge object only if
    they are the same slot or, in an undirected graph, mirror images.
    [simetrico]: in an undirected graph [d[u][v]] and [d[v][u]] hold the
    same edge, and no slot is a loop. *)
Definition limitado (p : ref) (d : gmap ref (gmap ref Aresta)) : Prop :=
  (∀ u, is_Some (d !! u) → (u < p)%positive) ∧
  (∀ u v a, slot d u v = Some a → (a_id a < p)%positive).

Definition injetivo (direcionado : bool) (d : gmap ref (gmap ref Aresta))
  : Prop :=
  ∀ u v a u' v' a',
    slot d u v = Some a → slot d u' v' = Some a' → a_id a = a_id a' →
    (u = u' ∧ v = v') ∨ (direcionado = false ∧ u = v' ∧ v = u').

Definition simetrico (d : gmap ref (gmap ref Aresta)) : Prop :=
  ∀ u v a, slot d u v = Some a → u ≠ v ∧ slot d v u = Some a.

Definition invariante (g : Grafo) : Prop :=
  limitado (prox (heap g)) (saida g) ∧
  injetivo (e_direcionado g) (saida g) ∧
  (e_direcionado g = false → simetrico (saida g)).

(** The slots whose first vertex was created before the second. *)
Definition menor (t : Vertice * Vertice * Aresta) : Prop :=
  (t.1.1 < t.1.2)%positive.

#[local] Instance menor_dec t : Decision (menor t).
Proof. unfold menor. apply _. Defined.

#[local] Instance pertence_dec g v : Decision (pertence g v).
Proof. unfold pertence. apply _. Defined.

#[local] Instance adjacente_dec g u v : Decision (adjacente g u v).
Proof. unfold adjacente. apply _. Defined.

(** The adjacency map of an undirected graph after a successful
    [inserir_aresta(u, v)] that created [x]: [d[u][v] = x; d[v][u] = x]. *)
Definition liga2 (u v : Vertice) (x : Aresta)
    (d : gmap ref (gmap ref Aresta)) : gmap ref (gmap ref Aresta) :=
  alter (<[u := x]>) v (alter (<[v := x]>) u d).

(** ** More of the class: incident edges, and graphs reached by any calls *)

(** [arestas_incidentes(self, v, saida=True)]:
    [adj = self._saida if saida else self._entrada]
    [for aresta in adj[v].values(): yield aresta].
    The generator is given by what exhausting it produces: the edges, or
    the [KeyError] of [adj[v]]. *)
Definition arestas_incidentes (v : Vertice) (de_saida : bool) (g : Grafo)
  : resultado (list Aresta) :=
  let adj := if de_saida then saida g else entrada g in
  match adj !! v with
  | Some m => Retorna (values m)
  | None => Levanta (KeyError v)
  end.

(** [a in s] for a set of edges: some element is the object [a]. *)
Definition set_in (a : Aresta) (s : gmap ref Aresta) : Prop :=
  is_Some (s !! a_id a).

(** The sum of [grau(v, saida)] over [vertices()]. *)
Definition soma_grau (de_saida : bool) (g : Grafo) : nat :=
  sum_list_with
    (λ v, match grau v de_saida g with Retorna n => n | Levanta _ => 0 end)
    (vertices g).

(** Invariants of every graph, whatever calls were made.
    [aponta]: the edge under [_saida[x][y]] runs from [x] to [y] (or, in an
    undirected graph, from [y] to [x]); [aponta_entrada]: the edge under
    [_entrada[y][x]] runs from [x] to [y]; [unico]: slots that hold the
    same identity hold the same edge. *)
Definition aponta (direcionado : bool) (d : gmap ref (gmap ref Aresta))
  : Prop :=
  ∀ x y a, slot d x y = Some a →
    Aresta_vertices a = (x, y) ∨
    (direcionado = false ∧ Aresta_vertices a = (y, x)).

Definition aponta_entrada (direcionado : bool)
    (d : gmap ref (gmap ref Aresta)) : Prop :=
  ∀ y x a, slot d y x = Some a →
    Aresta_vertices a = (x, y) ∨
    (direcionado = false ∧ Aresta_vertices a = (y, x)).

Definition unico (d : gmap ref (gmap ref Aresta)) : Prop :=
  ∀ x y a x' y' a',
    slot d x y = Some a → slot d x' y' = Some a' → a_id a = a_id a' → a = a'.

Definition coerente (g : Grafo) : Prop :=
  limitado (prox (heap g)) (saida g) ∧
  limitado (prox (heap g)) (entrada g) ∧
  (∀ v, is_Some (saida g !! v) ↔ is_Some (entrada g !! v)) ∧
  aponta (e_direcionado g) (saida g) ∧
  aponta_entrada (e_direcionado g) (entrada g) ∧
  unico (saida g).

(** Graphs built by calls in which every [inserir_aresta] joins two vertices
    of the graph (loops and repeated pairs allowed). *)
Inductive bem_construido : Grafo → Prop :=
  | bem_construido_init direcionado h :
      bem_construido (Grafo_init direcionado h)
  | bem_construido_vertice g x :
      bem_construido g → bem_construido (inserir_vertice x g).2
  | bem_construido_aresta g u v x :
      bem_construido g → pertence g u → pertence g v →
      bem_construido (inserir_aresta u v x g).2.

(** [_entrada[v][u]] and [_saida[u][v]] hold the same edge. *)
Definition espelhado (g : Grafo) : Prop :=
  ∀ u v, slot (entrada g) v u = slot (saida g) u v.

(** ** [Grafo.importar_txt]

    The static method reads a text file and prints what it parsed; it
    builds no graph.  A Python [str] is the list of its characters.  The
    three [str] methods the parsing uses are written out for a separator
    of one character, which is how the method calls them. *)
Section Str.
Context {C : Type} `{EqDecision C}.

(** [s.split(sep)]. *)
Fixpoint str_split (sep : C) (s : list C) : list (list C) :=
  match s with
  | [] => [[]]
  | c :: s' =>
      if decide (c = sep) then [] :: str_split sep s'
      else match str_split sep s' with
           | p :: ps => (c :: p) :: ps
           | [] => [[c]]
           end
  end.

(** [s.replace(c, '')]. *)
Definition str_replace_vazio (c : C) (s : list C) : list C :=
  filter (λ x, x ≠ c) s.

(** [sep.join(l)]. *)
Fixpoint str_join (sep : C) (l : list (list C)) : list C :=
  match l with
  | [] => []
  | [t] => t
  | t :: l' => t ++ sep :: str_join sep l'
  end.
End Str.

Abbreviation str := (list ascii).

Definition nl : ascii := "010"%char.

(** The characters the record format gives a meaning to. *)
Definition reservado (c : ascii) : Prop :=
  c = "="%char ∨ c = "{"%char ∨ c = "}"%char ∨ c = nl ∨ c = ","%char.

(** The expression appended for each line:
    [linha.split('=')[1].replace('{', '').replace('}', '')
          .replace('\n', '').split(',')];
    [None] is the [IndexError] of [[1]]. *)
Definition processa_linha (linha : str) : option (list str) :=
  campo ← str_split "="%char linha !! 1;
  Some (str_split ","%char
          (str_replace_vazio nl
             (str_replace_vazio "}"%char (str_replace_vazio "{"%char campo)))).

(** [for linha in arquivo: elementos_grafo.append(...)]: the list built, or
    [None] when a line raised. *)
Fixpoint laco (linhas : list str) (elementos_grafo : list (list str))
  : option (list (list str)) :=
  match linhas with
  | [] => Some elementos_grafo
  | linha :: resto =>
      match processa_linha linha with
      | Some campos => laco resto (elementos_grafo ++ [campos])
      | None => None
      end
  end.

(** What the method prints: [print(elementos_grafo)],
    [print("O caminho passado não pode ser vazio")] and
    [print("Um erro ocorreu ao tentar acessar o arquivo.")]. *)
Inductive impressao : Type :=
  | ImprimeElementos (elementos_grafo : list (list str))
  | ImprimeCaminhoVazio
  | ImprimeErroArquivo.

Inductive excecao_txt : Type :=
  | IndexError
  | OSError
  | UnboundLocalError (nome : string).

(** The state at the end of the [try] block: what was printed, the local
    variable [arquivo] (unbound, or the lines of the open file), and the
    exception in flight. *)
Record estado_txt : Type := mkEstadoTxt {
  impresso : list impressao;
  arquivo : option (list str);
  em_voo : option excecao_txt
}.

(** The outcome of the call: what was printed, whether [arquivo.close()]
    closed a file, and the exception that leaves the method. *)
Record resultado_txt : Type := mkResultadoTxt {
  saida_padrao : list impressao;
  fechou : bool;
  levantou : option excecao_txt
}.

(** [try: if caminho is not None: arquivo = open(caminho, 'r'); ...
         else: print(...)].
    [abre] is [open(caminho, 'r')] followed by the reading of the lines:
    [None] when the file cannot be opened. *)
Definition bloco_try (caminho : option str)
    (abre : str → option (list str)) : estado_txt :=
  match caminho with
  | Some c =>
      match abre c with
      | Some linhas =>
          match laco linhas [] with
          | Some elementos_grafo =>
              mkEstadoTxt [ImprimeElementos elementos_grafo] (Some linhas) None
          | None => mkEstadoTxt [] (Some linhas) (Some IndexError)
          end
      | None => mkEstadoTxt [] None (Some OSError)
      end
  | None => mkEstadoTxt [ImprimeCaminhoVazio] None None
  end.

(** [except: print(...)]: every exception is caught. *)
Definition bloco_except (e : estado_txt) : estado_txt :=
  match em_voo e with
  | Some _ => mkEstadoTxt (impresso e ++ [ImprimeErroArquivo]) (arquivo e) None
  | None => e
  end.

(** [finally: arquivo.close()]: an unbound local raises. *)
Definition bloco_finally (e : estado_txt) : resultado_txt :=
  match arquivo e with
  | Some _ => mkResultadoTxt (impresso e) true (em_voo e)
  | None =>
      mkResultadoTxt (impresso e) false (Some (UnboundLocalError "arquivo"))
  end.

(** [importar_txt(caminho=None, direcionado=False)]. *)
Definition importar_txt (caminho : option str) (direcionado : bool)
    (abre : str → option (list str)) : resultado_txt :=
  bloco_finally (bloco_except (bloco_try caminho abre)).

(** Closes [x ∉ l] for a list [l] of distinct literals. *)
Ltac nao_pertence :=
  let H := fresh in
  intros H; repeat (apply elem_of_cons in H as [[=]|H]);
  by apply elem_of_nil in H.

(** * Proofs *)

(** ** The heap after a statement *)

Lemma deref_grava d k m h d' :
  deref (grava d k m h) d' =
  if decide (d = d') then <[k := m]> (deref h d) else deref h d'.
Proof.
  unfold deref, grava; simpl. case_decide as Hd.
  - subst. by rewrite lookup_total_insert_eq.
  - by rewrite lookup_total_insert_ne.
Qed.

Lemma deref_avanca h d : deref (avanca h) d = deref h d.
Proof. done. Qed.

Lemma deref_guarda r o h d : deref (guarda r o h) d = deref h d.
Proof. done. Qed.

(** The outcome of [inserir_aresta], statement by statement. *)
Lemma inserir_aresta_eq u v x g :
  inserir_aresta u v x g =
  let a := mkAresta (prox (heap g)) u v x in
  match saida g !! u with
  | None => (Levanta (KeyError u), no_heap avanca g)
  | Some m =>
      let g2 := no_heap (λ h, grava (_saida g) u (<[v := a]> m) (avanca h)) g in
      match entrada g2 !! v with
      | None => (Levanta (KeyError v), g2)
      | Some m' => (Retorna a, no_heap (grava (_entrada g) v (<[u := a]> m')) g2)
      end
  end.
Proof.
  unfold inserir_aresta, Aresta_init, setitem2, setitem, getitem, aloca, leia,
    com_heap, mbind, M_bind, mret, M_ret, saida, entrada; simpl.
  destruct (deref (heap g) (_saida g) !! u) as [m|] eqn:Hu; simpl.
  2:{ rewrite deref_avanca, Hu. done. }
  rewrite deref_avanca, Hu. simpl.
  destruct (deref _ (_entrada g) !! v) as [m'|] eqn:Hv; simpl; done.
Qed.

Lemma inserir_vertice_eq x g :
  inserir_vertice x g =
  let v := prox (heap g) in
  let h1 := grava (_saida g) v ∅ (guarda v (mkVerticeObj x false) (avanca (heap g))) in
  (Retorna v,
   mkGrafo (_saida g) (_entrada g)
     (if e_direcionado g then grava (_entrada g) v ∅ h1 else h1)).
Proof.
  unfold inserir_vertice, Vertice_init, setitem, aloca, leia,
    com_heap, mbind, M_bind, mret, M_ret; simpl.
  unfold e_direcionado; simpl. destruct (negb _); done.
Qed.

Lemma e_direcionado_false g : e_direcionado g = false ↔ _entrada g = _saida g.
Proof.
  unfold e_direcionado. rewrite negb_false_iff, bool_decide_eq_true. done.
Qed.
Lemma e_direcionado_true g : e_direcionado g = true ↔ _entrada g ≠ _saida g.
Proof.
  unfold e_direcionado. rewrite negb_true_iff, bool_decide_eq_false. done.
Qed.

Lemma insert_alter_some (d : gmap ref (gmap ref Aresta)) u m f :
  d !! u = Some m → <[u := f m]> d = alter f u d.
Proof.
  intros Hm. apply map_eq; intros k. rewrite lookup_insert, lookup_alter.
  case_decide; subst; [by rewrite Hm | done].
Qed.

(** What [inserir_aresta] does to the two adjacency maps, in every case. *)
Lemma inserir_aresta_spec u v x g :
  let a := mkAresta (prox (heap g)) u v x in
  let S1 := alter (<[v := a]>) u (saida g) in
  let E1 := if e_direcionado g then entrada g else S1 in
  ∃ r g', inserir_aresta u v x g = (r, g') ∧
    _saida g' = _saida g ∧ _entrada g' = _entrada g ∧
    prox (heap g') = Pos.succ (prox (heap g)) ∧
    match saida g !! u with
    | None =>
        r = Levanta (KeyError u) ∧ saida g' = saida g ∧ entrada g' = entrada g
    | Some _ =>
        match E1 !! v with
        | None => r = Levanta (KeyError v) ∧ saida g' = S1 ∧ entrada g' = E1
        | Some _ =>
            r = Retorna a ∧ entrada g' = alter (<[u := a]>) v E1 ∧
            saida g' = if e_direcionado g then S1 else alter (<[u := a]>) v E1
        end
    end.
Proof.
  intros a S1 E1. rewrite inserir_aresta_eq. fold a.
  destruct (saida g !! u) as [m|] eqn:Hu.
  2:{ eexists _, _. split; [done|]. by repeat split. }
  cbv zeta.
  set (g2 := no_heap (λ h, grava (_saida g) u (<[v:=a]> m) (avanca h)) g).
  assert (HS : saida g2 = S1).
  { unfold saida, g2, no_heap; simpl. rewrite deref_grava, decide_True by done.
    rewrite deref_avanca. by apply insert_alter_some. }
  assert (HE : entrada g2 = E1).
  { unfold entrada, g2, no_heap, E1; simpl. rewrite deref_grava, deref_avanca.
    destruct (e_direcionado g) eqn:Hd.
    - apply e_direcionado_true in Hd. by rewrite decide_False.
    - apply e_direcionado_false in Hd. rewrite decide_True by done.
      by apply insert_alter_some. }
  destruct (entrada g2 !! v) as [m'|] eqn:Hv; rewrite HE in Hv; rewrite Hv.
  2:{ eexists _, _. split; [done|]. by repeat split. }
  assert (HE' : entrada (no_heap (grava (_entrada g) v (<[u:=a]> m')) g2)
                = alter (<[u := a]>) v E1).
  { unfold entrada at 1, no_heap at 1; simpl.
    rewrite deref_grava, decide_True by done.
    change (deref (grava _ _ _ _) (_entrada g)) with (entrada g2).
    rewrite HE. by apply insert_alter_some. }
  eexists _, _. split; [done|]. repeat split; try done.
  unfold saida at 1, no_heap at 1; simpl. rewrite deref_grava.
  destruct (e_direcionado g) eqn:Hd.
  - apply e_direcionado_true in Hd. rewrite decide_False by done. apply HS.
  - apply e_direcionado_false in Hd. rewrite decide_True by done.
    change (deref (grava _ _ _ _) (_entrada g)) with (entrada g2).
    rewrite HE. by apply insert_alter_some.
Qed.

(** What [inserir_vertice] does: it always returns the fresh vertex. *)
Lemma inserir_vertice_spec x g :
  let v := prox (heap g) in
  ∃ g', inserir_vertice x g = (Retorna v, g') ∧
    _saida g' = _saida g ∧ _entrada g' = _entrada g ∧
    prox (heap g') = Pos.succ (prox (heap g)) ∧
    saida g' = <[v := ∅]> (saida g) ∧
    entrada g' = <[v := ∅]> (entrada g).
Proof.
  intros v. rewrite inserir_vertice_eq. fold v. eexists. split; [done|].
  unfold saida, entrada; simpl.
  destruct (e_direcionado g) eqn:Hd; simpl.
  - apply e_direcionado_true in Hd. repeat split.
    + rewrite !deref_grava, decide_False, decide_True by done. done.
    + rewrite !deref_grava, decide_True by done.
      rewrite decide_False by done. done.
  - apply e_direcionado_false in Hd. rewrite Hd. repeat split.
    + by rewrite deref_grava, decide_True.
    + by rewrite deref_grava, decide_True.
Qed.

(** ** Reading the graph after an insertion *)

Lemma entrada_saida g : e_direcionado g = false → entrada g = saida g.
Proof. intros Hd%e_direcionado_false. unfold entrada, saida. by rewrite Hd. Qed.

(** When both endpoints belong to the graph the call returns. *)
Lemma inserir_aresta_sucesso u v x g :
  is_Some (saida g !! u) → is_Some (entrada g !! v) →
  let a := mkAresta (prox (heap g)) u v x in
  ∃ g', inserir_aresta u v x g = (Retorna a, g') ∧
    _saida g' = _saida g ∧ _entrada g' = _entrada g ∧
    prox (heap g') = Pos.succ (prox (heap g)) ∧
    saida g' = (if e_direcionado g then alter (<[v := a]>) u (saida g)
                else alter (<[u := a]>) v (alter (<[v := a]>) u (saida g))) ∧
    entrada g' = (if e_direcionado g then alter (<[u := a]>) v (entrada g)
                  else alter (<[u := a]>) v (alter (<[v := a]>) u (saida g))).
Proof.
  intros [m Hu] Hv a.
  destruct (inserir_aresta_spec u v x g) as (r & g' & Heq & Hs & He & Hp & Hc).
  cbv zeta in Hc. fold a in Hc. rewrite Hu in Hc.
  destruct (e_direcionado g) eqn:Hd.
  - destruct Hv as [m' Hv]. rewrite Hv in Hc. destruct Hc as (-> & HE & HS).
    exists g'. by repeat split.
  - rewrite (entrada_saida g Hd) in Hv.
    apply (lookup_alter_is_Some (<[v := a]>) (saida g) u v) in Hv.
    destruct Hv as [m' Hv]. rewrite Hv in Hc. destruct Hc as (-> & HE & HS).
    exists g'. by repeat split.
Qed.

Lemma slot_alter (d : gmap ref (gmap ref Aresta)) u v a x y :
  is_Some (d !! u) →
  slot (alter (<[v := a]>) u d) x y =
  if decide (x = u ∧ y = v) then Some a else slot d x y.
Proof.
  intros [m Hm]. unfold slot. rewrite lookup_alter.
  destruct (decide (u = x)) as [<-|Hne].
  - rewrite Hm; simpl. rewrite lookup_insert.
    destruct (decide (v = y)) as [<-|Hne].
    + by rewrite decide_True.
    + rewrite decide_False by intuition congruence. done.
  - rewrite decide_False by intuition congruence. done.
Qed.

(** The size of [d[x]] after [d[u][v] = a]. *)
Lemma size_alter (d : gmap ref (gmap ref Aresta)) u v a x :
  size <$> alter (<[v := a]>) u d !! x =
  (λ m, if decide (x = u ∧ m !! v = None) then S (size m) else size m)
    <$> d !! x.
Proof.
  rewrite lookup_alter. destruct (decide (u = x)) as [<-|Hne].
  - destruct (d !! u) as [m|]; simpl; [|done]. f_equal.
    rewrite map_size_insert. destruct (m !! v) eqn:Hv.
    + rewrite decide_False by intuition congruence. done.
    + by rewrite decide_True.
  - destruct (d !! x) as [m|]; simpl; [|done].
    rewrite decide_False by intuition congruence. done.
Qed.

Lemma grau_eq v b g :
  grau v b g =
  match size <$> (if b then saida g else entrada g) !! v with
  | Some n => Retorna n
  | None => Levanta (KeyError v)
  end.
Proof. unfold grau. by destruct ((if b then _ else _) !! v). Qed.

Lemma aresta_eq u v g :
  is_Some (saida g !! u) → aresta u v g = Retorna (slot (saida g) u v).
Proof. intros [m Hm]. unfold aresta, slot. by rewrite Hm. Qed.

Lemma soma_graus_insert (d : gmap ref (gmap ref Aresta)) u m :
  d !! u = None → soma_graus (<[u := m]> d) = size m + soma_graus d.
Proof.
  intros Hu. unfold soma_graus. by rewrite map_to_list_insert.
Qed.

Lemma soma_graus_lookup (d : gmap ref (gmap ref Aresta)) u m :
  d !! u = Some m → soma_graus d = size m + soma_graus (delete u d).
Proof.
  intros Hu. rewrite <- (insert_delete_id d u m) at 1 by done.
  apply soma_graus_insert, lookup_delete_eq.
Qed.

(** The sum of the degrees after [d[u][v] = a]. *)
Lemma soma_graus_alter (d : gmap ref (gmap ref Aresta)) u v a :
  is_Some (d !! u) →
  soma_graus (alter (<[v := a]>) u d) =
  match slot d u v with
  | Some _ => soma_graus d
  | None => S (soma_graus d)
  end.
Proof.
  intros [m Hm]. unfold slot. rewrite Hm; simpl.
  rewrite (soma_graus_lookup d u m Hm).
  rewrite <- (insert_alter_some d u m) by done.
  rewrite <- insert_delete_eq.
  rewrite soma_graus_insert by apply lookup_delete_eq.
  rewrite map_size_insert. by destruct (m !! v).
Qed.

(** The edge a successful [inserir_aresta] returns. *)
Lemma inserir_aresta_retorno g u v x a g' :
  inserir_aresta u v x g = (Retorna a, g') →
  a = mkAresta (prox (heap g)) u v x.
Proof.
  intros Heq.
  destruct (inserir_aresta_spec u v x g) as (r & g1 & Heq' & _ & _ & _ & Hc).
  rewrite Heq in Heq'. injection Heq' as <- <-. cbv zeta in Hc.
  destruct (saida g !! u); [|by destruct Hc].
  destruct (_ !! v); destruct Hc as [Hr _]; congruence.
Qed.

Lemma executa_attrs g c :
  _saida (executa g c) = _saida g ∧ _entrada (executa g c) = _entrada g ∧
  prox (heap (executa g c)) = Pos.succ (prox (heap g)).
Proof.
  destruct c as [x|u v x]; simpl.
  - destruct (inserir_vertice_spec x g) as (g' & -> & ? & ? & ? & _). done.
  - destruct (inserir_aresta_spec u v x g) as (r & g' & -> & ? & ? & ? & _).
    done.
Qed.

Lemma executa_todas_attrs cs g :
  _saida (executa_todas cs g) = _saida g ∧
  _entrada (executa_todas cs g) = _entrada g ∧
  (prox (heap g) ≤ prox (heap (executa_todas cs g)))%positive.
Proof.
  revert g. induction cs as [|c cs IH]; intros g; simpl; [by repeat split|].
  destruct (IH (executa g c)) as (-> & -> & Hp).
  destruct (executa_attrs g c) as (-> & -> & Hq). repeat split. lia.
Qed.

Lemma elem_of_vertices g u : u ∈ vertices g ↔ is_Some (saida g !! u).
Proof.
  unfold vertices. rewrite list_elem_of_fmap. split.
  - intros ([k m] & -> & Hin). apply elem_of_map_to_list in Hin. by eexists.
  - intros [m Hm]. exists (u, m). split; [done|]. by apply elem_of_map_to_list.
Qed.

(** ** Counting the slots and the edges *)

Lemma elem_of_values {A} (d : gmap ref A) x :
  x ∈ values d ↔ ∃ k, d !! k = Some x.
Proof.
  unfold values. rewrite list_elem_of_fmap. split.
  - intros ([k y] & -> & Hin). exists k. by apply elem_of_map_to_list.
  - intros [k Hk]. exists (k, x). split; [done|]. by apply elem_of_map_to_list.
Qed.

Lemma elem_of_slots d u v a : (u, v, a) ∈ slots d ↔ slot d u v = Some a.
Proof.
  unfold slots, slot. rewrite list_elem_of_bind. split.
  - intros ([k m] & Hin & Hk). apply elem_of_map_to_list in Hk.
    apply list_elem_of_fmap in Hin as ([k' a'] & Heq & Hin).
    apply elem_of_map_to_list in Hin. simpl in *.
    injection Heq as -> -> ->. by rewrite Hk.
  - destruct (d !! u) as [m|] eqn:Hm; [|done]. simpl. intros Ha.
    exists (u, m). split; [|by apply elem_of_map_to_list].
    apply list_elem_of_fmap. exists (v, a). split; [done|].
    by apply elem_of_map_to_list.
Qed.

Lemma NoDup_slots d : NoDup (slots d).
Proof.
  unfold slots. apply NoDup_bind; [| |apply NoDup_map_to_list].
  - intros [k1 m1] [k2 m2] [[u v] a] H1 H2 Hy1 Hy2.
    apply elem_of_map_to_list in H1, H2.
    apply list_elem_of_fmap in Hy1 as ([v1 a1] & Heq1 & _).
    apply list_elem_of_fmap in Hy2 as ([v2 a2] & Heq2 & _).
    simpl in *. injection Heq1 as -> _ _. injection Heq2 as -> _ _.
    f_equal. congruence.
  - intros [k m] _. simpl. apply NoDup_fmap_2_strong; [|apply NoDup_map_to_list].
    intros [v1 a1] [v2 a2] _ _ Heq. simpl in Heq. congruence.
Qed.

Lemma length_slots d : length (slots d) = soma_graus d.
Proof.
  unfold slots, soma_graus. induction (map_to_list d) as [|[k m] l IH]; [done|].
  csimpl. rewrite length_app, length_fmap, length_map_to_list, IH. done.
Qed.

Lemma set_add_lookup s a i :
  is_Some (set_add s a !! i) ↔ is_Some (s !! i) ∨ a_id a = i.
Proof.
  unfold set_add. destruct (s !! a_id a) eqn:Ha.
  - split; [by left|]. intros [?| <-]; [done|by rewrite Ha].
  - rewrite lookup_insert. case_decide as Hc.
    + split; [by right|]. by intros _.
    + split; [by left|]. by intros [?|?].
Qed.

Lemma set_update_lookup l s i :
  is_Some (set_update s l !! i) ↔
  is_Some (s !! i) ∨ ∃ a, a ∈ l ∧ a_id a = i.
Proof.
  unfold set_update. revert s. induction l as [|a l IH]; intros s; simpl.
  - split; [by left|]. intros [?|(a & Ha & _)]; [done|]. by apply elem_of_nil in Ha.
  - rewrite IH, set_add_lookup. split.
    + intros [[?| <-]|(b & Hb & <-)].
      * by left.
      * right. exists a. split; [left|done].
      * right. exists b. split; [by right|done].
    + intros [?|(b & Hb & <-)]; [by left; left|].
      apply elem_of_cons in Hb as [->|Hb]; [by left; right|].
      right. by exists b.
Qed.

Lemma foldl_update_lookup (l : list (gmap ref Aresta)) s i :
  is_Some (foldl (λ res m, set_update res (values m)) s l !! i) ↔
  is_Some (s !! i) ∨ ∃ m a, m ∈ l ∧ a ∈ values m ∧ a_id a = i.
Proof.
  revert s. induction l as [|m l IH]; intros s; simpl.
  - split; [by left|]. intros [?|(m & a & Hm & _)]; [done|].
    by apply elem_of_nil in Hm.
  - rewrite IH, set_update_lookup. split.
    + intros [[?|(a & Ha & <-)]|(m' & a & Hm' & Ha & <-)].
      * by left.
      * right. exists m, a. split; [left|done].
      * right. exists m', a. split; [by right|done].
    + intros [?|(m' & a & Hm' & Ha & <-)]; [by left; left|].
      apply elem_of_cons in Hm' as [->|Hm'].
      * left. right. by exists a.
      * right. by exists m', a.
Qed.

(** The identities in [arestas()] are those stored in the slots. *)
Lemma arestas_lookup g i :
  is_Some (arestas g !! i) ↔ i ∈ ids (slots (saida g)).
Proof.
  unfold arestas. rewrite foldl_update_lookup, lookup_empty.
  unfold ids. rewrite list_elem_of_fmap. split.
  - intros [[? ?]|(m & a & Hm & Ha & <-)]; [done|].
    apply elem_of_values in Hm as [u Hu]. apply elem_of_values in Ha as [v Hv].
    exists (u, v, a). split; [done|]. apply elem_of_slots. unfold slot.
    by rewrite Hu.
  - intros ([[u v] a] & -> & Hin). right. apply elem_of_slots in Hin.
    unfold slot in Hin. destruct (saida g !! u) as [m|] eqn:Hu; [|done].
    exists m, a. split; [|split; [|done]]; apply elem_of_values; eauto.
Qed.

Lemma len_arestas g (l : list ref) :
  NoDup l → (∀ i, is_Some (arestas g !! i) ↔ i ∈ l) →
  len (arestas g) = length l.
Proof.
  intros Hnd Hl. unfold len.
  rewrite <- (size_dom (D := gset ref)).
  rewrite <- (size_list_to_set (C := gset ref) l Hnd). f_equal.
  apply set_eq. intros i. rewrite elem_of_dom, elem_of_list_to_set. apply Hl.
Qed.

(** Directed: every slot holds an edge of its own. *)
Lemma len_arestas_direcionado g :
  injetivo true (saida g) → len (arestas g) = soma_graus (saida g).
Proof.
  intros Hinj. rewrite <- length_slots.
  rewrite (len_arestas g (ids (slots (saida g)))).
  - unfold ids. by rewrite length_fmap.
  - apply NoDup_fmap_2_strong; [|apply NoDup_slots].
    intros [[u v] a] [[u' v'] a'] H1 H2 Hid. simpl in Hid.
    apply elem_of_slots in H1, H2.
    destruct (Hinj _ _ _ _ _ _ H1 H2 Hid) as [[-> ->]|[? _]]; [|done].
    congruence.
  - apply arestas_lookup.
Qed.

(** Undirected: every edge occupies exactly the two slots [(u,v)] and
    [(v,u)], so the slots with [u < v] enumerate the edges once. *)
Lemma len_arestas_nao_direcionado g :
  injetivo false (saida g) → simetrico (saida g) →
  soma_graus (saida g) = 2 * len (arestas g).
Proof.
  intros Hinj Hsim. set (L := slots (saida g)).
  assert (HL : ∀ u v a, (u, v, a) ∈ L ↔ slot (saida g) u v = Some a)
    by (intros; apply elem_of_slots).
  assert (Hnd : ∀ (P : Vertice * Vertice * Aresta → Prop)
                  `{∀ t, Decision (P t)},
             (∀ t t', t ∈ L → P t → P t' →
                      t.1.1 = t'.1.2 → t.1.2 = t'.1.1 → False) →
             NoDup (ids (filter P L))).
  { intros P ? HP. apply NoDup_fmap_2_strong; [|apply NoDup_filter, NoDup_slots].
    intros [[u v] a] [[u' v'] a'] [Hp H1]%list_elem_of_filter
      [Hp' H2]%list_elem_of_filter Hid. simpl in Hid.
    pose proof H1 as H1'. apply HL in H1, H2.
    destruct (Hinj _ _ _ _ _ _ H1 H2 Hid) as [[-> ->]|(_ & -> & ->)].
    - congruence.
    - destruct (HP _ _ H1' Hp Hp'); done. }
  assert (Hnd1 : NoDup (ids (filter menor L))).
  { apply Hnd. intros [[u v] a] [[u' v'] a'] _. unfold menor; simpl. lia. }
  assert (Hnd2 : NoDup (ids (filter (λ t, ¬ menor t) L))).
  { apply Hnd. intros [[u v] a] [[u' v'] a'] Hin. unfold menor; simpl.
    intros ?? -> ->. apply HL, Hsim in Hin as [Hne _]. lia. }
  assert (Hswap : ∀ i, i ∈ ids (filter menor L) ↔
                       i ∈ ids (filter (λ t, ¬ menor t) L)).
  { intros i. unfold ids. rewrite !list_elem_of_fmap. split.
    - intros ([[u v] a] & -> & [Hp Hin]%list_elem_of_filter).
      apply HL, Hsim in Hin as [Hne Hin]. exists (v, u, a). split; [done|].
      apply list_elem_of_filter. split; [|by apply HL].
      unfold menor in *; simpl in *. lia.
    - intros ([[u v] a] & -> & [Hp Hin]%list_elem_of_filter).
      apply HL, Hsim in Hin as [Hne Hin]. exists (v, u, a). split; [done|].
      apply list_elem_of_filter. split; [|by apply HL].
      unfold menor in *; simpl in *. lia. }
  assert (Hlen : length (filter (λ t, ¬ menor t) L) = length (filter menor L)).
  { rewrite <- (length_fmap (λ t, a_id t.2) (filter menor L)).
    rewrite <- (length_fmap (λ t, a_id t.2) (filter (λ t, ¬ menor t) L)).
    apply Permutation_length. symmetry. by apply NoDup_Permutation. }
  rewrite (len_arestas g (ids (filter menor L)) Hnd1).
  - rewrite <- length_slots. fold L.
    rewrite <- (filter_app_complement menor L) at 1.
    rewrite length_app, Hlen. unfold ids. rewrite length_fmap. lia.
  - intros i. rewrite arestas_lookup. fold L. split.
    + unfold ids at 1. intros (t & -> & Hin)%list_elem_of_fmap.
      destruct (decide (menor t)) as [Hp|Hp].
      * apply list_elem_of_fmap. exists t. split; [done|].
        by apply list_elem_of_filter.
      * apply Hswap, list_elem_of_fmap. exists t. split; [done|].
        by apply list_elem_of_filter.
    + unfold ids. intros (t & -> & [_ Hin]%list_elem_of_filter)%list_elem_of_fmap.
      apply list_elem_of_fmap. by exists t.
Qed.

(** ** The invariants hold in every graph that was built *)

Lemma saida_init b h : saida (Grafo_init b h) = ∅.
Proof.
  unfold saida, deref, Grafo_init, novo_dict. destruct b; simpl.
  - rewrite lookup_total_insert_ne by lia. by rewrite lookup_total_insert_eq.
  - by rewrite lookup_total_insert_eq.
Qed.

Lemma slot_empty u v : slot ∅ u v = None.
Proof. unfold slot. by rewrite lookup_empty. Qed.

Lemma slot_insert_empty (d : gmap ref (gmap ref Aresta)) k u v :
  d !! k = None → slot (<[k := ∅]> d) u v = slot d u v.
Proof.
  intros Hk. unfold slot. rewrite lookup_insert. case_decide; [|done].
  subst. by rewrite Hk.
Qed.

Lemma limitado_mono p q d : (p ≤ q)%positive → limitado p d → limitado q d.
Proof.
  intros Hpq [Hk Hs]. split.
  - intros u Hu. specialize (Hk u Hu). lia.
  - intros u v a Ha. specialize (Hs u v a Ha). lia.
Qed.

Lemma invariante_init b h : invariante (Grafo_init b h).
Proof.
  unfold invariante. rewrite saida_init. split; [split|split].
  - intros u [? Hu]. by rewrite lookup_empty in Hu.
  - intros u v a Ha. by rewrite slot_empty in Ha.
  - intros u v a u' v' a' Ha. by rewrite slot_empty in Ha.
  - intros _ u v a Ha. by rewrite slot_empty in Ha.
Qed.

Lemma invariante_vertice g x :
  invariante g → invariante (inserir_vertice x g).2.
Proof.
  intros ([Hk Hs] & Hinj & Hsim).
  destruct (inserir_vertice_spec x g) as (g' & -> & Hs' & He' & Hp & HS & _).
  simpl. assert (Hd : e_direcionado g' = e_direcionado g).
  { unfold e_direcionado. by rewrite Hs', He'. }
  assert (Hnew : saida g !! prox (heap g) = None).
  { apply eq_None_not_Some. intros Hin. specialize (Hk _ Hin). lia. }
  assert (Hslot : ∀ u v, slot (saida g') u v = slot (saida g) u v).
  { intros. rewrite HS. by apply slot_insert_empty. }
  unfold invariante. rewrite Hd, Hp. split; [split|split].
  - intros u. rewrite HS, lookup_insert. case_decide; [lia|].
    intros Hu. specialize (Hk u Hu). lia.
  - intros u v a. rewrite Hslot. intros Ha. specialize (Hs _ _ _ Ha). lia.
  - intros u v a u' v' a'. rewrite !Hslot. apply Hinj.
  - intros Hdir u v a. rewrite !Hslot. by apply Hsim.
Qed.

(** The slots after [d[u][v] = a] with a fresh edge [a]. *)
Lemma limitado_alter p d u v a :
  is_Some (d !! u) → a_id a = p → limitado p d →
  limitado (Pos.succ p) (alter (<[v := a]>) u d).
Proof.
  intros Hu Ha [Hk Hs]. split.
  - intros k. rewrite lookup_alter_is_Some. intros Hin. specialize (Hk k Hin). lia.
  - intros x y b. rewrite slot_alter by done. case_decide.
    + intros [= <-]. lia.
    + intros Hb. specialize (Hs _ _ _ Hb). lia.
Qed.

Lemma injetivo_alter p d u v a :
  is_Some (d !! u) → a_id a = p → limitado p d →
  injetivo true d → injetivo true (alter (<[v := a]>) u d).
Proof.
  intros Hu Ha [_ Hs] Hinj x y b x' y' b'. rewrite !slot_alter by done.
  repeat case_decide.
  - intros _ _ _. left. naive_solver.
  - intros [= <-] Hb' Hid. specialize (Hs _ _ _ Hb'). lia.
  - intros Hb [= <-] Hid. specialize (Hs _ _ _ Hb). lia.
  - apply Hinj.
Qed.

Lemma slot_alter2 (d : gmap ref (gmap ref Aresta)) u v a x y :
  is_Some (d !! u) → is_Some (d !! v) →
  slot (alter (<[u := a]>) v (alter (<[v := a]>) u d)) x y =
  if decide ((x = u ∧ y = v) ∨ (x = v ∧ y = u)) then Some a else slot d x y.
Proof.
  intros Hu Hv. rewrite slot_alter by (by rewrite lookup_alter_is_Some).
  rewrite slot_alter by done. repeat case_decide; naive_solver.
Qed.

Lemma invariante_aresta g u v x :
  invariante g →
  (e_direcionado g = false → pertence g u ∧ pertence g v ∧ u ≠ v) →
  invariante (inserir_aresta u v x g).2.
Proof.
  intros (Hlim & Hinj & Hsim) Hpre.
  destruct (inserir_aresta_spec u v x g) as (r & g' & -> & Hs' & He' & Hp & Hc).
  cbv zeta in Hc. simpl.
  assert (Hd : e_direcionado g' = e_direcionado g).
  { unfold e_direcionado. by rewrite Hs', He'. }
  set (a := mkAresta (prox (heap g)) u v x) in *.
  unfold invariante. rewrite Hd, Hp.
  destruct (saida g !! u) as [mu|] eqn:Hu.
  2:{ destruct Hc as (_ & -> & _). split; [|done].
      eapply limitado_mono; [|done]. lia. }
  assert (Hu' : is_Some (saida g !! u)) by (by rewrite Hu).
  destruct (e_direcionado g) eqn:Hdir.
  - (* directed: only [_saida[u][v]] changes in [_saida] *)
    assert (HS : saida g' = alter (<[v := a]>) u (saida g)).
    { destruct (entrada g !! v); by destruct Hc as (_ & ? & ?). }
    rewrite HS. split; [|split; [|done]].
    + by apply limitado_alter.
    + by eapply injetivo_alter.
  - (* undirected: both endpoints belong and differ *)
    destruct (Hpre eq_refl) as ([_ _] & [Hv _] & Hne).
    assert (Hv' : is_Some (alter (<[v := a]>) u (saida g) !! v))
      by (by rewrite lookup_alter_is_Some).
    destruct Hv' as [mv Hmv]. rewrite Hmv in Hc. destruct Hc as (_ & _ & HS).
    rewrite HS. destruct Hlim as [Hk Hsl]. split; [split|split].
    + intros k. rewrite !lookup_alter_is_Some. intros Hin.
      specialize (Hk k Hin). lia.
    + intros x' y' b. rewrite slot_alter2 by done. case_decide.
      * intros [= <-]. simpl. lia.
      * intros Hb. specialize (Hsl _ _ _ Hb). lia.
    + intros x1 y1 b1 x2 y2 b2. rewrite !slot_alter2 by done.
      repeat case_decide.
      * intros _ _ _. naive_solver.
      * intros [= <-] Hb Hid. specialize (Hsl _ _ _ Hb). simpl in Hid. lia.
      * intros Hb [= <-] Hid. specialize (Hsl _ _ _ Hb). simpl in Hid. lia.
      * apply Hinj.
    + intros _ x1 y1 b. rewrite !slot_alter2 by done.
      repeat case_decide.
      * intros [= <-]. naive_solver.
      * naive_solver.
      * intros Hb. destruct (Hsim eq_refl _ _ _ Hb). naive_solver.
      * intros Hb. by apply Hsim.
Qed.

Lemma construido_invariante g : construido g → invariante g.
Proof.
  induction 1 as [b h|g x _ IH|g u v x _ IH Hpre].
  - apply invariante_init.
  - by apply invariante_vertice.
  - by apply invariante_aresta.
Qed.

(** ** The demonstration graph, in any heap *)

Lemma bind_retorna {A B} (m : M A) (k : A → M B) g a g' :
  m g = (Retorna a, g') → (m ≫= k) g = k a g'.
Proof. intros H. unfold mbind, M_bind. by rewrite H. Qed.

Lemma size_alter_map (d : gmap ref (gmap ref Aresta)) f k :
  size (alter f k d) = size d.
Proof.
  rewrite <- !(size_dom (D := gset ref)). f_equal. apply dom_alter_L.
Qed.

Lemma liga2_lookup u v x d k :
  liga2 u v x d !! k =
  (λ m, if decide (k = v) then <[u := x]> (if decide (k = u) then <[v := x]> m else m)
        else if decide (k = u) then <[v := x]> m else m) <$> d !! k.
Proof.
  unfold liga2. rewrite !lookup_alter.
  repeat case_decide; subst; try done; destruct (d !! _); done.
Qed.

Lemma liga2_size u v x d : size (liga2 u v x d) = size d.
Proof. unfold liga2. by rewrite !size_alter_map. Qed.

Lemma liga2_soma u v x d :
  u ≠ v → is_Some (d !! u) → is_Some (d !! v) →
  slot d u v = None → slot d v u = None →
  soma_graus (liga2 u v x d) = S (S (soma_graus d)).
Proof.
  intros Hne Hu Hv Huv Hvu. unfold liga2.
  rewrite soma_graus_alter by (by rewrite lookup_alter_is_Some).
  rewrite slot_alter by done. rewrite decide_False by (intros [? ?]; done).
  rewrite Hvu. by rewrite soma_graus_alter, Huv.
Qed.

Lemma liga2_slot u v x d a b :
  is_Some (d !! u) → is_Some (d !! v) →
  slot (liga2 u v x d) a b =
  if decide ((a = u ∧ b = v) ∨ (a = v ∧ b = u)) then Some x else slot d a b.
Proof. apply slot_alter2. Qed.

Lemma cenario_contagens (a b c d e f : Vertice) (x1 x2 x3 x4 : Aresta) :
  NoDup [a; b; c; d; e; f] →
  let S0 : gmap ref (gmap ref Aresta) :=
    <[f := ∅]> (<[e := ∅]> (<[d := ∅]> (<[c := ∅]> (<[b := ∅]> (<[a := ∅]> ∅))))) in
  let S4 := liga2 b d x4 (liga2 c d x3 (liga2 a c x2 (liga2 a b x1 S0))) in
  size S4 = 6 ∧ soma_graus S4 = 8 ∧
  size <$> S4 !! a = Some 2 ∧ size <$> S4 !! e = Some 0.
Proof.
  intros Hnd S0 S4.
  assert (Hne : a ≠ b ∧ a ≠ c ∧ a ≠ d ∧ a ≠ e ∧ a ≠ f ∧ b ≠ c ∧ b ≠ d ∧ b ≠ e
                ∧ b ≠ f ∧ c ≠ d ∧ c ≠ e ∧ c ≠ f ∧ d ≠ e ∧ d ≠ f ∧ e ≠ f).
  { repeat (apply NoDup_cons in Hnd as [? Hnd]). set_solver. }
  destruct_and!.
  assert (HS0 : ∀ k, k ∈ [a; b; c; d; e; f] → S0 !! k = Some ∅).
  { intros k Hk. unfold S0. set_unfold. destruct_or!; subst; by simplify_map_eq. }
  assert (Hslot0 : ∀ u v, slot S0 u v = None).
  { intros u v. unfold slot, S0.
    repeat (rewrite lookup_insert; case_decide; [done|]). done. }
  assert (Hk : ∀ k u v x D, is_Some (D !! k) → is_Some (liga2 u v x D !! k)).
  { intros. unfold liga2. by rewrite !lookup_alter_is_Some. }
  assert (Hin : ∀ k, k ∈ [a; b; c; d; e; f] → is_Some (S0 !! k)).
  { intros k Hin. by rewrite HS0. }
  assert (Ha : is_Some (S0 !! a)) by (apply Hin; set_solver).
  assert (Hb : is_Some (S0 !! b)) by (apply Hin; set_solver).
  assert (Hc : is_Some (S0 !! c)) by (apply Hin; set_solver).
  assert (Hd : is_Some (S0 !! d)) by (apply Hin; set_solver).
  split; [|split; [|split]].
  - unfold S4. rewrite !liga2_size. unfold S0.
    rewrite !map_size_insert_None by (by simplify_map_eq). done.
  - unfold S4.
    rewrite liga2_soma; [|done|auto|auto|..].
    2,3: rewrite !liga2_slot by auto; repeat (case_decide; [naive_solver|]); done.
    rewrite liga2_soma; [|done|auto|auto|..].
    2,3: rewrite !liga2_slot by auto; repeat (case_decide; [naive_solver|]); done.
    rewrite liga2_soma; [|done|auto|auto|..].
    2,3: rewrite !liga2_slot by auto; repeat (case_decide; [naive_solver|]); done.
    rewrite liga2_soma by auto.
    unfold S0. rewrite !soma_graus_insert by (by simplify_map_eq). done.
  - unfold S4. rewrite !liga2_lookup, HS0 by set_solver. simpl.
    repeat (case_decide; [done|]). rewrite !decide_True by done.
    rewrite !map_size_insert_None by (by simplify_map_eq). done.
  - unfold S4. rewrite !liga2_lookup, HS0 by set_solver. simpl.
    repeat (case_decide; [done|]). done.
Qed.

Lemma passo_vertice x g :
  ∃ g', inserir_vertice x g = (Retorna (prox (heap g)), g') ∧
    e_direcionado g' = e_direcionado g ∧
    prox (heap g') = Pos.succ (prox (heap g)) ∧
    saida g' = <[prox (heap g) := ∅]> (saida g).
Proof.
  destruct (inserir_vertice_spec x g) as (g' & Heq & Hs & He & Hp & HS & _).
  exists g'. repeat split; try done. unfold e_direcionado. by rewrite Hs, He.
Qed.

Lemma passo_aresta u v x g :
  e_direcionado g = false →
  is_Some (saida g !! u) → is_Some (saida g !! v) →
  ∃ a g', inserir_aresta u v x g = (Retorna a, g') ∧
    e_direcionado g' = false ∧
    saida g' = liga2 u v a (saida g).
Proof.
  intros Hd Hu Hv. rewrite <- (entrada_saida g Hd) in Hv.
  destruct (inserir_aresta_sucesso u v x g Hu Hv)
    as (g' & Heq & Hs & He & _ & HS & _).
  rewrite Hd in HS. eexists _, g'. split; [done|]. split; [|done].
  unfold e_direcionado in *. by rewrite Hs, He.
Qed.

(** * The claims *)

(** C1, as stated, fails: in an undirected graph with one vertex [u],
    [inserir_aresta(u, u)] writes the single slot [_saida[u][u]], so
    [num_arestas()] is [1 // 2 = 0] while [arestas()] holds one edge. *)
Lemma num_arestas_laco :
  let g0 := (inserir_vertice VNone (Grafo_init_padrao heap_vazio)).2 in
  let r := inserir_aresta 2%positive 2%positive VNone g0 in
  e_direcionado g0 = false ∧ pertence g0 2%positive ∧
  r.1 = Retorna (mkAresta 3%positive 2%positive 2%positive VNone) ∧
  num_arestas r.2 = 0 ∧ len (arestas r.2) = 1.
Proof. vm_compute. repeat split; eauto. Qed.

(** C1 (amended): [num_arestas()] equals [len(arestas())] in every directed
    graph built by the constructor and any sequence of [inserir_vertice] and
    [inserir_aresta] calls, and in every undirected graph built by calls in
    which each [inserir_aresta] joins two distinct vertices of the graph. *)
Theorem num_arestas_len_arestas g :
  construido g → num_arestas g = len (arestas g).
Proof.
  intros (_ & Hinj & Hsim)%construido_invariante. unfold num_arestas.
  destruct (e_direcionado g).
  - symmetry. by apply len_arestas_direcionado.
  - rewrite len_arestas_nao_direcionado by auto.
    rewrite Nat.mul_comm. by rewrite Nat.div_mul.
Qed.

Lemma num_arestas_len_arestas_par :
  let g := (inserir_aresta 2%positive 3%positive VNone
              (inserir_vertice (VStr "v")
                 (inserir_vertice (VStr "u")
                    (Grafo_init false heap_vazio)).2).2).2 in
  num_arestas g = len (arestas g).
Proof.
  intros g. apply (num_arestas_len_arestas g).
  apply construido_aresta.
  - apply construido_vertice, construido_vertice, construido_init.
  - intros _. vm_compute. repeat split; eauto; discriminate.
Defined.

(** C2, as stated, fails: when the edge between [u] and [v] is already
    there, inserting it again replaces it and both degrees stay the same. *)
Lemma grau_inalterado_nao_direcionado :
  let g := (inserir_aresta 2%positive 3%positive VNone (par false)).2 in
  let g' := (inserir_aresta 2%positive 3%positive VNone g).2 in
  e_direcionado g = false ∧ pertence g 2%positive ∧ pertence g 3%positive ∧
  grau 2%positive true g = Retorna 1 ∧ grau 3%positive true g = Retorna 1 ∧
  grau 2%positive true g' = Retorna 1 ∧ grau 3%positive true g' = Retorna 1.
Proof. vm_compute. repeat split; eauto. Qed.

(** C2 (amended): in an undirected graph, for vertices [u] and [v] of the
    graph, [inserir_aresta(u, v)] returns, and afterwards [aresta(u, v)] and
    [aresta(v, u)] return the very edge object that was created.  When no
    edge joined [u] and [v] before, [grau(u)] and [grau(v)] each grow by
    exactly 1; when one did, it is replaced and both degrees are unchanged. *)
Theorem inserir_aresta_nao_direcionado g u v x :
  e_direcionado g = false → pertence g u → pertence g v →
  ∃ a g' du dv,
    inserir_aresta u v x g = (Retorna a, g') ∧
    aresta u v g' = Retorna (Some a) ∧
    aresta v u g' = Retorna (Some a) ∧
    grau u true g = Retorna du ∧ grau v true g = Retorna dv ∧
    (¬ adjacente g u v → ¬ adjacente g v u →
     grau u true g' = Retorna (S du) ∧ grau v true g' = Retorna (S dv)) ∧
    (adjacente g u v → adjacente g v u →
     grau u true g' = Retorna du ∧ grau v true g' = Retorna dv).
Proof.
  intros Hd [Hu Hu'] [Hv Hv'].
  destruct (inserir_aresta_sucesso u v x g Hu Hv')
    as (g' & Heq & _ & _ & _ & HS & _).
  rewrite Hd in HS. set (a := mkAresta (prox (heap g)) u v x) in *.
  destruct Hu as [mu Hmu], Hv as [mv Hmv].
  assert (Hu1 : is_Some (alter (<[v := a]>) u (saida g) !! v))
    by (by rewrite lookup_alter_is_Some, Hmv).
  assert (Hu2 : is_Some (saida g !! u)) by (by rewrite Hmu).
  exists a, g', (size mu), (size mv). split; [done|].
  split; [|split; [|split; [|split; [|split]]]].
  - rewrite aresta_eq by (by rewrite HS, !lookup_alter_is_Some).
    f_equal. rewrite HS, slot_alter by done.
    case_decide; [done|]. rewrite slot_alter by done. by rewrite decide_True.
  - rewrite aresta_eq by (by rewrite HS, !lookup_alter_is_Some, Hmv).
    f_equal. rewrite HS, slot_alter by done. by rewrite decide_True.
  - by rewrite grau_eq, Hmu.
  - by rewrite grau_eq, Hmv.
  - unfold adjacente, slot. rewrite Hmu, Hmv; simpl.
    rewrite <- !eq_None_not_Some. intros Huv Hvu.
    rewrite !grau_eq, HS, !size_alter. split.
    + rewrite lookup_alter_eq, Hmu; simpl.
      rewrite (map_size_insert_None v a mu Huv).
      case_decide as Hc; [|done]. destruct Hc as [-> Hc].
      by rewrite lookup_insert_eq in Hc.
    + rewrite lookup_alter, Hmv. case_decide as Hc; simpl.
      * subst v. assert (mv = mu) as -> by congruence. rewrite Hmu; simpl. rewrite (map_size_insert_None u a mu Huv).
        rewrite decide_False; [done|]. rewrite lookup_insert_eq. by intros [_ ?].
      * by rewrite decide_True.
  - unfold adjacente, slot. rewrite Hmu, Hmv; simpl.
    intros Huv Hvu.
    rewrite !grau_eq, HS, !size_alter. split.
    + rewrite lookup_alter_eq, Hmu; simpl.
      rewrite (map_size_insert_Some v a mu Huv).
      case_decide as Hc; [|done]. destruct Hc as [-> Hc].
      by rewrite lookup_insert_eq in Hc.
    + rewrite lookup_alter, Hmv. case_decide as Hc; simpl.
      * subst v. assert (mv = mu) as -> by congruence. rewrite Hmu; simpl. rewrite (map_size_insert_Some u a mu Huv).
        rewrite decide_False; [done|]. rewrite lookup_insert_eq. by intros [_ ?].
      * rewrite decide_False; [done|]. intros [_ Hn]. rewrite Hn in Hvu.
        by destruct Hvu.
Qed.

Lemma inserir_aresta_nao_direcionado_par :
  ∃ a g' du dv,
    inserir_aresta 2%positive 3%positive (VInt 7) (par false)
    = (Retorna a, g') ∧
    aresta 2%positive 3%positive g' = Retorna (Some a) ∧
    aresta 3%positive 2%positive g' = Retorna (Some a) ∧
    grau 2%positive true (par false) = Retorna du ∧
    grau 3%positive true (par false) = Retorna dv ∧
    (¬ adjacente (par false) 2%positive 3%positive →
     ¬ adjacente (par false) 3%positive 2%positive →
     grau 2%positive true g' = Retorna (S du) ∧
     grau 3%positive true g' = Retorna (S dv)) ∧
    (adjacente (par false) 2%positive 3%positive →
     adjacente (par false) 3%positive 2%positive →
     grau 2%positive true g' = Retorna du ∧
     grau 3%positive true g' = Retorna dv).
Proof.
  apply (inserir_aresta_nao_direcionado (par false) 2%positive 3%positive).
  - vm_compute. reflexivity.
  - vm_compute. split; eauto.
  - vm_compute. split; eauto.
Defined.

(** C3, as stated, fails twice: inserting an edge that is already there
    leaves [grau(u, saida=True)] and [grau(v, saida=False)] as they were, and
    inserting a loop [(u, u)] changes [grau(u, saida=False)]. *)
Lemma grau_inalterado_direcionado :
  let g := (inserir_aresta 3%positive 4%positive VNone (par true)).2 in
  let g' := (inserir_aresta 3%positive 4%positive VNone g).2 in
  let l := (inserir_aresta 3%positive 3%positive VNone (par true)).2 in
  e_direcionado g = true ∧ pertence g 3%positive ∧ pertence g 4%positive ∧
  grau 3%positive true g = Retorna 1 ∧ grau 4%positive false g = Retorna 1 ∧
  grau 3%positive true g' = Retorna 1 ∧ grau 4%positive false g' = Retorna 1 ∧
  grau 3%positive false (par true) = Retorna 0 ∧
  grau 3%positive false l = Retorna 1.
Proof. vm_compute. repeat split; eauto. Qed.

(** C3 (amended): in a directed graph, for vertices [u] and [v] of the
    graph, [inserir_aresta(u, v)] returns; [grau(u, saida=True)] grows by 1
    when no edge from [u] to [v] was stored, [grau(v, saida=False)] grows by
    1 when none was recorded as entering [v] from [u], and
    [grau(u, saida=False)] is unchanged when [u] is not [v]. *)
Theorem inserir_aresta_direcionado g u v x :
  e_direcionado g = true → pertence g u → pertence g v →
  ∃ a g' su ev eu,
    inserir_aresta u v x g = (Retorna a, g') ∧
    grau u true g = Retorna su ∧
    grau v false g = Retorna ev ∧
    grau u false g = Retorna eu ∧
    (¬ adjacente g u v → grau u true g' = Retorna (S su)) ∧
    (¬ adjacente_entrada g v u → grau v false g' = Retorna (S ev)) ∧
    (u ≠ v → grau u false g' = Retorna eu).
Proof.
  intros Hd [Hu Hu'] [Hv Hv'].
  destruct (inserir_aresta_sucesso u v x g Hu Hv')
    as (g' & Heq & _ & _ & _ & HS & HE).
  rewrite Hd in HS, HE. set (a := mkAresta (prox (heap g)) u v x) in *.
  destruct Hu as [mu Hmu], Hv' as [mv Hmv], Hu' as [mu' Hmu'].
  exists a, g', (size mu), (size mv), (size mu'). split; [done|].
  split; [|split; [|split; [|split; [|split]]]].
  - by rewrite grau_eq, Hmu.
  - by rewrite grau_eq, Hmv.
  - by rewrite grau_eq, Hmu'.
  - unfold adjacente, slot. rewrite Hmu; simpl. rewrite <- eq_None_not_Some.
    intros Huv. rewrite grau_eq, HS, size_alter, Hmu; simpl.
    by rewrite decide_True.
  - unfold adjacente_entrada, slot. rewrite Hmv; simpl.
    rewrite <- eq_None_not_Some.
    intros Hvu. rewrite grau_eq, HE, size_alter, Hmv; simpl.
    by rewrite decide_True.
  - intros Hne. rewrite grau_eq, HE, size_alter, Hmu'; simpl.
    rewrite decide_False; [done|]. by intros [? _].
Qed.

Lemma inserir_aresta_direcionado_par :
  ∃ a g' su ev eu,
    inserir_aresta 3%positive 4%positive (VInt 7) (par true)
    = (Retorna a, g') ∧
    grau 3%positive true (par true) = Retorna su ∧
    grau 4%positive false (par true) = Retorna ev ∧
    grau 3%positive false (par true) = Retorna eu ∧
    (¬ adjacente (par true) 3%positive 4%positive →
     grau 3%positive true g' = Retorna (S su)) ∧
    (¬ adjacente_entrada (par true) 4%positive 3%positive →
     grau 4%positive false g' = Retorna (S ev)) ∧
    (3%positive ≠ 4%positive → grau 3%positive false g' = Retorna eu).
Proof.
  apply (inserir_aresta_direcionado (par true) 3%positive 4%positive).
  - vm_compute. reflexivity.
  - vm_compute. split; eauto.
  - vm_compute. split; eauto.
Defined.

(** C4, as stated, fails: two edges created by two [inserir_aresta] calls
    with the same origin and destination have the same endpoints, yet [==]
    tells them apart, because [Aresta] defines [__hash__] only. *)
Lemma aresta_eq_mesmos_extremos :
  let r1 := inserir_aresta 2%positive 3%positive (VInt 1) (par false) in
  let r2 := inserir_aresta 2%positive 3%positive (VInt 1) r1.2 in
  let a1 := mkAresta 4%positive 2%positive 3%positive (VInt 1) in
  let a2 := mkAresta 5%positive 2%positive 3%positive (VInt 1) in
  r1.1 = Retorna a1 ∧ r2.1 = Retorna a2 ∧
  Aresta_vertices a1 = Aresta_vertices a2 ∧
  Aresta_eq a1 a2 = false.
Proof. vm_compute. repeat split. Qed.

(** C4 (amended): two edges created by separate [inserir_aresta] calls with
    the same (origin, destination) pair have the same hash, which is
    computed from the endpoint pair and not from the payload or the object
    identity; they are not equal, since equality of edges is object
    identity. *)
Theorem aresta_hash_e_igualdade (hash_int : Z → Z) (hash_tuple : list Z → Z)
    g u v x1 x2 cs a1 g1 a2 g2 :
  inserir_aresta u v x1 g = (Retorna a1, g1) →
  inserir_aresta u v x2 (executa_todas cs g1) = (Retorna a2, g2) →
  Aresta_hash hash_int hash_tuple a1 = Aresta_hash hash_int hash_tuple a2 ∧
  Aresta_vertices a1 = Aresta_vertices a2 ∧
  Aresta_eq a1 a2 = false.
Proof.
  intros H1 H2.
  assert (Hp : (prox (heap g) < prox (heap (executa_todas cs g1)))%positive).
  { destruct (inserir_aresta_spec u v x1 g) as (r & g' & Heq & _ & _ & Hp & _).
    rewrite H1 in Heq. injection Heq as <- <-.
    destruct (executa_todas_attrs cs g1) as (_ & _ & Hle). lia. }
  apply inserir_aresta_retorno in H1, H2. subst a1 a2.
  split; [done|]. split; [done|].
  unfold Aresta_eq, Aresta_is. apply bool_decide_eq_false. simpl. lia.
Qed.

Lemma aresta_hash_e_igualdade_par :
  let h := Aresta_hash (λ z, z) (foldr Z.add 0%Z) in
  let a1 := mkAresta 4%positive 2%positive 3%positive (VInt 1) in
  let a2 := mkAresta 6%positive 2%positive 3%positive (VStr "x") in
  h a1 = h a2 ∧ Aresta_vertices a1 = Aresta_vertices a2 ∧
  Aresta_eq a1 a2 = false.
Proof.
  intros h a1 a2.
  apply (aresta_hash_e_igualdade (λ z, z) (foldr Z.add 0%Z) (par false)
           2%positive 3%positive (VInt 1) (VStr "x") [InserirVertice VNone]
           a1 (inserir_aresta 2%positive 3%positive (VInt 1) (par false)).2
           a2 (inserir_aresta 2%positive 3%positive (VStr "x")
                 (executa_todas [InserirVertice VNone]
                    (inserir_aresta 2%positive 3%positive (VInt 1)
                       (par false)).2)).2).
  - vm_compute. reflexivity.
  - vm_compute. reflexivity.
Defined.

(** C5: for vertices [u] and [v] of a graph, [inserir_aresta(u, v, p1)]
    followed by [inserir_aresta(u, v, p2)] raises nothing; afterwards
    [aresta(u, v)] returns the second edge, which carries [p2] and is not
    the first edge object, and the second call added no slot to [u]. *)
Theorem inserir_aresta_duas_vezes g u v p1 p2 :
  pertence g u → pertence g v →
  ∃ a1 g1 a2 g2,
    inserir_aresta u v p1 g = (Retorna a1, g1) ∧
    inserir_aresta u v p2 g1 = (Retorna a2, g2) ∧
    aresta u v g2 = Retorna (Some a2) ∧
    peso a2 = p2 ∧
    Aresta_is a1 a2 = false ∧
    grau u true g2 = grau u true g1.
Proof.
  intros [Hu _] [Hv' Hv].
  destruct (inserir_aresta_sucesso u v p1 g Hu Hv)
    as (g1 & Heq1 & Hs1 & He1 & Hp1 & HS1 & HE1).
  assert (Hd1 : e_direcionado g1 = e_direcionado g).
  { unfold e_direcionado. by rewrite Hs1, He1. }
  assert (Hu1 : is_Some (saida g1 !! u)).
  { rewrite HS1. destruct (e_direcionado g);
      rewrite ?lookup_alter_is_Some; done. }
  assert (Hv1 : is_Some (entrada g1 !! v)).
  { rewrite HE1. destruct (e_direcionado g) eqn:Hd;
      rewrite ?lookup_alter_is_Some; done. }
  destruct (inserir_aresta_sucesso u v p2 g1 Hu1 Hv1)
    as (g2 & Heq2 & Hs2 & He2 & Hp2 & HS2 & HE2).
  eexists _, g1, _, g2. split; [exact Heq1|]. split; [exact Heq2|].
  assert (Hu2 : is_Some (saida g2 !! u)).
  { rewrite HS2. destruct (e_direcionado g1);
      rewrite ?lookup_alter_is_Some; done. }
  assert (H12 : slot (saida g1) u v =
                Some (mkAresta (prox (heap g)) u v p1)).
  { rewrite HS1. destruct (e_direcionado g).
    - rewrite slot_alter by done. by rewrite decide_True.
    - rewrite slot_alter by (by rewrite lookup_alter_is_Some).
      case_decide; [naive_solver|].
      rewrite slot_alter by done. by rewrite decide_True. }
  repeat split.
  - rewrite aresta_eq by done. f_equal. rewrite HS2.
    destruct (e_direcionado g1) eqn:Hd.
    + rewrite slot_alter by done. by rewrite decide_True.
    + rewrite (entrada_saida g1 Hd) in Hv1.
      rewrite slot_alter by (by rewrite lookup_alter_is_Some).
      case_decide as Hc; [done|].
      rewrite slot_alter by done. by rewrite decide_True.
  - unfold Aresta_is; simpl. rewrite bool_decide_eq_false, Hp1. lia.
  - rewrite !grau_eq. rewrite HS2.
    unfold slot in H12. destruct (saida g1 !! u) as [m|] eqn:Hm; [|done].
    simpl in H12.
    destruct (e_direcionado g1).
    + rewrite size_alter, Hm. simpl. rewrite decide_False; [done|].
      intros [_ ?]; congruence.
    + rewrite size_alter, lookup_alter_eq, Hm. simpl.
      rewrite map_size_insert_Some by (by rewrite H12).
      case_decide as Hc; [|done]. destruct Hc as [-> Hc].
      rewrite lookup_insert_eq in Hc. done.
Qed.

Lemma inserir_aresta_duas_vezes_par :
  ∃ a1 g1 a2 g2,
    inserir_aresta 3%positive 4%positive (VInt 1) (par true)
    = (Retorna a1, g1) ∧
    inserir_aresta 3%positive 4%positive (VInt 2) g1 = (Retorna a2, g2) ∧
    aresta 3%positive 4%positive g2 = Retorna (Some a2) ∧
    peso a2 = VInt 2 ∧
    Aresta_is a1 a2 = false ∧
    grau 3%positive true g2 = grau 3%positive true g1.
Proof.
  apply (inserir_aresta_duas_vezes (par true) 3%positive 4%positive).
  - vm_compute. split; eauto.
  - vm_compute. split; eauto.
Defined.

(** C6: for the edge [a] returned by [inserir_aresta(u, v, x)],
    [a.oposto(u)] is [v], [a.oposto(v)] is [u], and [a.oposto(w)] is [u] for
    every vertex [w] that is not [u], endpoint or not; [oposto] never
    fails. *)
Theorem oposto_inserida g u v x a g' :
  inserir_aresta u v x g = (Retorna a, g') →
  Aresta_vertices a = (u, v) ∧
  oposto a u = v ∧ oposto a v = u ∧
  ∀ w, w ≠ u → oposto a w = u.
Proof.
  intros ->%inserir_aresta_retorno.
  unfold oposto; simpl. split; [done|]. split; [by rewrite decide_True|].
  split.
  - by case_decide.
  - intros w Hw. by rewrite decide_False.
Qed.

Lemma oposto_inserida_par :
  let a := mkAresta 4%positive 2%positive 3%positive VNone in
  Aresta_vertices a = (2%positive, 3%positive) ∧
  oposto a 2%positive = 3%positive ∧ oposto a 3%positive = 2%positive ∧
  ∀ w, w ≠ 2%positive → oposto a w = 2%positive.
Proof.
  intros a.
  apply (oposto_inserida (par false) 2%positive 3%positive VNone a
           (inserir_aresta 2%positive 3%positive VNone (par false)).2).
  vm_compute. reflexivity.
Defined.

(** C7: [aresta(u, v)] returns [None] when [u] and [v] are vertices of the
    graph and no edge runs from [u] to [v], and raises [KeyError] when [u]
    is not among the vertices of the graph. *)
Theorem aresta_ausente g u v :
  (pertence g u → pertence g v → ¬ adjacente g u v →
   aresta u v g = Retorna None) ∧
  (u ∉ vertices g → aresta u v g = Levanta (KeyError u)).
Proof.
  split.
  - intros [Hu _] _ Hadj. rewrite aresta_eq by done. f_equal.
    by apply eq_None_not_Some.
  - rewrite elem_of_vertices, <- eq_None_not_Some. intros Hu.
    unfold aresta. by rewrite Hu.
Qed.

Lemma aresta_ausente_par :
  aresta 3%positive 4%positive (par true) = Retorna None ∧
  aresta 9%positive 3%positive (par true) = Levanta (KeyError 9%positive).
Proof.
  destruct (aresta_ausente (par true) 3%positive 4%positive) as [H1 _].
  destruct (aresta_ausente (par true) 9%positive 3%positive) as [_ H2].
  split.
  - apply H1.
    + vm_compute. split; eauto.
    + vm_compute. split; eauto.
    + vm_compute. intros [? [=]].
  - apply H2. vm_compute. intros Hin.
    repeat (apply elem_of_cons in Hin as [[=]|Hin]).
    by apply elem_of_nil in Hin.
Defined.

(** C8: [e_direcionado()] is [False] for [Grafo()] and, in general, equal
    to the argument [direcionado] of the constructor; it is [True] exactly
    when [_entrada] and [_saida] are distinct objects; and no sequence of
    [inserir_vertice] and [inserir_aresta] calls, returning or raising,
    changes it. *)
Theorem e_direcionado_estavel (direcionado : bool) (h : Heap)
    (cs : list chamada) :
  e_direcionado (Grafo_init_padrao h) = false ∧
  e_direcionado (Grafo_init direcionado h) = direcionado ∧
  (∀ g, e_direcionado g = true ↔ _entrada g ≠ _saida g) ∧
  (∀ g, e_direcionado (executa_todas cs g) = e_direcionado g).
Proof.
  split; [|split; [|split]].
  - apply e_direcionado_false. done.
  - destruct direcionado.
    + apply e_direcionado_true. simpl. lia.
    + apply e_direcionado_false. done.
  - apply e_direcionado_true.
  - intros g. unfold e_direcionado.
    destruct (executa_todas_attrs cs g) as (-> & -> & _). done.
Qed.

(** C9: in whatever heap the undirected graph is constructed, after the
    vertices a..f and the edges (a,b), (a,c), (c,d), (b,d) are inserted,
    [num_vertices()] is 6, [num_arestas()] is 4, [grau(a)] is 2 and
    [grau(e)] is 0. *)
Theorem grafo_exemplo_contagens h :
  ∃ a b c d e f g,
    grafo_exemplo_prog (Grafo_init_padrao h)
    = (Retorna [a; b; c; d; e; f], g) ∧
    num_vertices g = 6 ∧ num_arestas g = 4 ∧
    grau a true g = Retorna 2 ∧ grau e true g = Retorna 0.
Proof.
  set (g0 := Grafo_init_padrao h).
  assert (D0 : e_direcionado g0 = false) by (by apply e_direcionado_false).
  assert (S0 : saida g0 = ∅) by apply saida_init.
  unfold grafo_exemplo_prog.
  destruct (passo_vertice (VStr "a") g0) as (g1 & E1 & D1 & P1 & S1).
  destruct (passo_vertice (VStr "b") g1) as (g2 & E2 & D2 & P2 & S2).
  destruct (passo_vertice (VStr "c") g2) as (g3 & E3 & D3 & P3 & S3).
  destruct (passo_vertice (VStr "d") g3) as (g4 & E4 & D4 & P4 & S4).
  destruct (passo_vertice (VStr "e") g4) as (g5 & E5 & D5 & P5 & S5).
  destruct (passo_vertice (VStr "f") g5) as (g6 & E6 & D6 & P6 & S6).
  rewrite (bind_retorna _ _ _ _ _ E1), (bind_retorna _ _ _ _ _ E2),
    (bind_retorna _ _ _ _ _ E3), (bind_retorna _ _ _ _ _ E4),
    (bind_retorna _ _ _ _ _ E5), (bind_retorna _ _ _ _ _ E6).
  set (a := prox (heap g0)) in *. set (b := prox (heap g1)) in *.
  set (c := prox (heap g2)) in *. set (d := prox (heap g3)) in *.
  set (e := prox (heap g4)) in *. set (f := prox (heap g5)) in *.
  assert (Hnd : NoDup [a; b; c; d; e; f]).
  { repeat (apply NoDup_cons; split; [set_unfold; lia|]). apply NoDup_nil_2. }
  rewrite D5, D4, D3, D2, D1, D0 in D6.
  rewrite S5, S4, S3, S2, S1, S0 in S6.
  assert (Hin : ∀ k, k ∈ [a; b; c; d; e; f] → is_Some (saida g6 !! k)).
  { intros k Hk. rewrite S6. set_unfold.
    destruct_or!; subst k; rewrite ?lookup_insert_is_Some'; eauto 10. }
  assert (Hk : ∀ k u v x D, is_Some (D !! k) → is_Some (liga2 u v x D !! k)).
  { intros. unfold liga2. by rewrite !lookup_alter_is_Some. }
  destruct (passo_aresta a b VNone g6 D6) as (x1 & g7 & E7 & D7 & S7);
    [apply Hin; set_solver..|].
  destruct (passo_aresta a c VNone g7 D7) as (x2 & g8 & E8 & D8 & S8);
    [rewrite S7; apply Hk, Hin; set_solver..|].
  destruct (passo_aresta c d VNone g8 D8) as (x3 & g9 & E9 & D9 & S9);
    [rewrite S8, S7; apply Hk, Hk, Hin; set_solver..|].
  destruct (passo_aresta b d VNone g9 D9) as (x4 & g10 & E10 & D10 & S10);
    [rewrite S9, S8, S7; apply Hk, Hk, Hk, Hin; set_solver..|].
  rewrite (bind_retorna _ _ _ _ _ E7), (bind_retorna _ _ _ _ _ E8),
    (bind_retorna _ _ _ _ _ E9), (bind_retorna _ _ _ _ _ E10).
  exists a, b, c, d, e, f, g10. split; [done|].
  rewrite S9, S8, S7, S6 in S10.
  destruct (cenario_contagens a b c d e f x1 x2 x3 x4 Hnd) as (C1 & C2 & C3 & C4).
  rewrite <- S10 in C1, C2, C3, C4.
  unfold num_vertices, num_arestas. rewrite !grau_eq, D10, C1, C2, C3, C4. done.
Qed.

(** The same run, evaluated in a heap where nothing was created before. *)
Example grafo_exemplo_heap_vazio :
  num_vertices grafo_exemplo = 6 ∧ num_arestas grafo_exemplo = 4 ∧
  grau 2%positive true grafo_exemplo = Retorna 2 ∧
  grau 6%positive true grafo_exemplo = Retorna 0.
Proof. vm_compute. repeat split. Qed.

(** C10, as stated, fails: when an earlier failed call left an edge from
    [u] to the foreign vertex [v], calling [inserir_aresta(u, v)] again
    raises [KeyError] and replaces that edge, and neither [num_arestas()]
    nor [grau(u, saida=True)] grows. *)
Lemma inserir_aresta_falha_repetida :
  let g0 := (inserir_vertice VNone (Grafo_init true heap_vazio)).2 in
  let g := (inserir_aresta 3%positive 9%positive VNone g0).2 in
  let r := inserir_aresta 3%positive 9%positive VNone g in
  e_direcionado g = true ∧ pertence g 3%positive ∧ alheio g 9%positive ∧
  r.1 = Levanta (KeyError 9%positive) ∧
  num_arestas g = 1 ∧ num_arestas r.2 = 1 ∧
  grau 3%positive true g = Retorna 1 ∧ grau 3%positive true r.2 = Retorna 1.
Proof. vm_compute. repeat split; eauto. Qed.

(** C10 (amended): in a directed graph, [inserir_aresta(u, v, x)] with [u]
    a vertex of the graph and [v] not one raises [KeyError(v)] after the new
    edge has been stored under [_saida[u][v]]: the state is modified, and
    [aresta(u, v)] now returns the new edge.  [num_arestas()] and
    [grau(u, saida=True)] grow by 1 when no edge from [u] to [v] was stored
    before, and are unchanged when one was (it is replaced). *)
Theorem inserir_aresta_nao_atomica g u v x :
  e_direcionado g = true → pertence g u → alheio g v →
  ∃ a g' n,
    inserir_aresta u v x g = (Levanta (KeyError v), g') ∧
    aresta u v g' = Retorna (Some a) ∧ peso a = x ∧
    grau u true g = Retorna n ∧
    (¬ adjacente g u v →
     num_arestas g' = S (num_arestas g) ∧ grau u true g' = Retorna (S n)) ∧
    (adjacente g u v →
     num_arestas g' = num_arestas g ∧ grau u true g' = Retorna n).
Proof.
  intros Hd [Hu _] [_ Hv].
  destruct (inserir_aresta_spec u v x g) as (r & g' & Heq & Hs & He & _ & Hc).
  cbv zeta in Hc. rewrite Hd, Hv in Hc. destruct Hu as [mu Hmu].
  rewrite Hmu in Hc. destruct Hc as (-> & HS & HE).
  set (a := mkAresta (prox (heap g)) u v x) in *.
  assert (Hd' : e_direcionado g' = true).
  { unfold e_direcionado in *. by rewrite Hs, He. }
  exists a, g', (size mu). split; [done|].
  split; [|split; [|split; [|split]]].
  - rewrite aresta_eq by (by rewrite HS, lookup_alter_is_Some, Hmu).
    by rewrite HS, slot_alter, decide_True by (by rewrite ?Hmu).
  - done.
  - by rewrite grau_eq, Hmu.
  - unfold adjacente. rewrite <- eq_None_not_Some. intros Huv.
    unfold num_arestas. rewrite Hd, Hd', HS.
    rewrite soma_graus_alter, Huv by (by rewrite Hmu). split; [done|].
    rewrite grau_eq, HS, size_alter, Hmu; simpl. rewrite decide_True; [done|].
    unfold slot in Huv. by rewrite Hmu in Huv.
  - unfold adjacente. intros [a0 Huv].
    unfold num_arestas. rewrite Hd, Hd', HS.
    rewrite soma_graus_alter, Huv by (by rewrite Hmu). split; [done|].
    rewrite grau_eq, HS, size_alter, Hmu; simpl. rewrite decide_False; [done|].
    unfold slot in Huv. rewrite Hmu in Huv. simpl in Huv.
    intros [_ ?]; congruence.
Qed.

Lemma inserir_aresta_nao_atomica_par :
  ∃ a g' n,
    inserir_aresta 3%positive 9%positive (VInt 5) (par true)
    = (Levanta (KeyError 9%positive), g') ∧
    aresta 3%positive 9%positive g' = Retorna (Some a) ∧ peso a = VInt 5 ∧
    grau 3%positive true (par true) = Retorna n ∧
    (¬ adjacente (par true) 3%positive 9%positive →
     num_arestas g' = S (num_arestas (par true)) ∧
     grau 3%positive true g' = Retorna (S n)) ∧
    (adjacente (par true) 3%positive 9%positive →
     num_arestas g' = num_arestas (par true) ∧
     grau 3%positive true g' = Retorna n).
Proof.
  apply (inserir_aresta_nao_atomica (par true) 3%positive 9%positive).
  - vm_compute. reflexivity.
  - vm_compute. split; eauto.
  - vm_compute. split; reflexivity.
Defined.

(** * Further properties of the class

    Properties of the methods the claims leave out ([vertices],
    [arestas_incidentes], [elemento], [importar_txt]) and of how the
    methods compose. *)

(** ** Invariants of every graph *)

Lemma entrada_init b h : entrada (Grafo_init b h) = ∅.
Proof.
  unfold entrada, deref, Grafo_init, novo_dict. destruct b; simpl;
    by rewrite lookup_total_insert_eq.
Qed.

Lemma limitado_alter_lt q d u v a :
  is_Some (d !! u) → (a_id a < q)%positive → limitado q d →
  limitado q (alter (<[v := a]>) u d).
Proof.
  intros Hu Ha [Hk Hs]. split.
  - intros k. rewrite lookup_alter_is_Some. apply Hk.
  - intros x y b. rewrite slot_alter by done. case_decide.
    + by intros [= <-].
    + apply Hs.
Qed.

Lemma limitado_insert_empty p d :
  limitado p d → limitado (Pos.succ p) (<[p := ∅]> d).
Proof.
  intros [Hk Hs]. split.
  - intros u. rewrite lookup_insert. case_decide; [lia|].
    intros Hu. specialize (Hk u Hu). lia.
  - intros u v a. unfold slot. rewrite lookup_insert. case_decide; [done|].
    intros Ha. specialize (Hs u v a Ha). lia.
Qed.

Lemma limitado_fresco p d : limitado p d → d !! p = None.
Proof.
  intros [Hk _]. apply eq_None_not_Some. intros Hin. specialize (Hk _ Hin). lia.
Qed.

Lemma aponta_alter dir d u v a :
  is_Some (d !! u) →
  (Aresta_vertices a = (u, v) ∨ (dir = false ∧ Aresta_vertices a = (v, u))) →
  aponta dir d → aponta dir (alter (<[v := a]>) u d).
Proof.
  intros Hu Ha Hd x y b. rewrite slot_alter by done. case_decide as Hc.
  - destruct Hc as [-> ->]. by intros [= <-].
  - apply Hd.
Qed.

Lemma aponta_entrada_alter dir d u v a :
  is_Some (d !! v) →
  (Aresta_vertices a = (u, v) ∨ (dir = false ∧ Aresta_vertices a = (v, u))) →
  aponta_entrada dir d → aponta_entrada dir (alter (<[u := a]>) v d).
Proof.
  intros Hv Ha Hd y x b. rewrite slot_alter by done. case_decide as Hc.
  - destruct Hc as [-> ->]. by intros [= <-].
  - apply Hd.
Qed.

Lemma unico_alter d u v a :
  is_Some (d !! u) →
  (∀ x y b, slot d x y = Some b → a_id b = a_id a → b = a) →
  unico d → unico (alter (<[v := a]>) u d).
Proof.
  intros Hu Ha Hd x y b x' y' b'. rewrite !slot_alter by done.
  repeat case_decide.
  - by intros [= <-] [= <-].
  - intros [= <-] Hb' Hid. symmetry. by eapply Ha.
  - intros Hb [= <-] Hid. by eapply Ha.
  - apply Hd.
Qed.

Lemma slot_insert_empty_sub (d : gmap ref (gmap ref Aresta)) k u v a :
  slot (<[k := ∅]> d) u v = Some a → slot d u v = Some a.
Proof.
  unfold slot. rewrite lookup_insert. case_decide; [done|done].
Qed.

Lemma coerente_init b h : coerente (Grafo_init b h).
Proof.
  unfold coerente. rewrite saida_init, entrada_init.
  assert (Hl : ∀ p, limitado p ∅).
  { intros p. split.
    - intros u [? Hu]. by rewrite lookup_empty in Hu.
    - intros u v a Ha. by rewrite slot_empty in Ha. }
  split; [done|]. split; [done|]. split; [done|].
  split; [|split]; repeat intro; by rewrite slot_empty in *.
Qed.

Lemma coerente_vertice g x : coerente g → coerente (inserir_vertice x g).2.
Proof.
  intros (HlS & HlE & Hk & HaS & HaE & Hu).
  destruct (inserir_vertice_spec x g) as (g' & -> & Hs' & He' & Hp & HS & HE).
  simpl. assert (Hd : e_direcionado g' = e_direcionado g).
  { unfold e_direcionado. by rewrite Hs', He'. }
  unfold coerente. rewrite Hd, Hp, HS, HE.
  split; [by apply limitado_insert_empty|].
  split; [by apply limitado_insert_empty|].
  split.
  { intros v. rewrite !lookup_insert. case_decide; [done|apply Hk]. }
  split; [|split].
  - intros a b c Hc%slot_insert_empty_sub. by apply HaS.
  - intros a b c Hc%slot_insert_empty_sub. by apply HaE.
  - intros a b c a' b' c' Hc%slot_insert_empty_sub Hc'%slot_insert_empty_sub.
    by eapply Hu.
Qed.

Lemma coerente_aresta g u v x : coerente g → coerente (inserir_aresta u v x g).2.
Proof.
  intros (HlS & HlE & Hk & HaS & HaE & Hu).
  destruct (inserir_aresta_spec u v x g) as (r & g' & -> & Hs' & He' & Hp & Hc).
  cbv zeta in Hc. simpl.
  assert (Hd : e_direcionado g' = e_direcionado g).
  { unfold e_direcionado. by rewrite Hs', He'. }
  set (a := mkAresta (prox (heap g)) u v x) in *.
  set (p := prox (heap g)) in *.
  assert (Hpp : (p ≤ Pos.succ p)%positive) by lia.
  unfold coerente. rewrite Hd, Hp.
  destruct (saida g !! u) as [mu|] eqn:Hmu.
  2:{ destruct Hc as (_ & -> & ->).
      split; [by eapply limitado_mono|]. split; [by eapply limitado_mono|].
      done. }
  assert (Hsu : is_Some (saida g !! u)) by (by rewrite Hmu).
  (* the first write *)
  set (S1 := alter (<[v := a]>) u (saida g)) in *.
  assert (Hl1 : limitado (Pos.succ p) S1) by (by apply limitado_alter).
  assert (Ha1 : aponta (e_direcionado g) S1)
    by (apply aponta_alter; [done|by left|done]).
  assert (Hfresh : ∀ d, limitado p d →
            ∀ x y b, slot d x y = Some b → a_id b = a_id a → b = a).
  { intros d [_ Hs] x0 y0 b Hb Hid. specialize (Hs _ _ _ Hb).
    simpl in Hid. lia. }
  assert (Hu1 : unico S1) by (apply unico_alter; eauto).
  destruct (e_direcionado g) eqn:Hdir.
  - (* directed *)
    assert (HS : saida g' = S1).
    { destruct (entrada g !! v); by destruct Hc as (_ & ? & ?). }
    rewrite HS.
    destruct (entrada g !! v) as [mv|] eqn:Hmv.
    + destruct Hc as (_ & -> & _).
      split; [done|]. split; [by apply limitado_alter; [rewrite Hmv|..]|].
      split.
      { intros w. unfold S1. rewrite !lookup_alter_is_Some. apply Hk. }
      split; [done|]. split; [|done].
      apply aponta_entrada_alter; [by rewrite Hmv|by left|done].
    + destruct Hc as (_ & _ & ->).
      split; [done|]. split; [by eapply limitado_mono|].
      split.
      { intros w. unfold S1. rewrite !lookup_alter_is_Some. apply Hk. }
      done.
  - (* undirected: one dictionary *)
    assert (HES : entrada g = saida g) by (by apply entrada_saida).
    assert (HaE1 : aponta_entrada false S1).
    { unfold S1. intros y0 x0 b. rewrite slot_alter by done. case_decide as Hc0.
      - destruct Hc0 as [-> ->]. intros [= <-]. right. done.
      - rewrite <- HES. apply HaE. }
    destruct (S1 !! v) as [mv|] eqn:Hmv.
    + destruct Hc as (_ & -> & ->).
      assert (Hsv : is_Some (S1 !! v)) by (by rewrite Hmv).
      assert (Hl2 : limitado (Pos.succ p) (alter (<[u := a]>) v S1)).
      { apply limitado_alter_lt; [done|simpl; lia|done]. }
      split; [done|]. split; [done|]. split; [done|].
      split; [|split].
      * apply aponta_alter; [done|by right|done].
      * apply aponta_entrada_alter; [done|by left|done].
      * apply unico_alter; [done| |done].
        intros x0 y0 b. unfold S1. rewrite slot_alter by done.
        case_decide; [by intros [= <-]|]. by apply Hfresh.
    + destruct Hc as (_ & -> & ->). done.
Qed.

Lemma coerente_executa_todas cs g :
  coerente g → coerente (executa_todas cs g).
Proof.
  revert g. induction cs as [|c cs IH]; intros g Hg; [done|].
  simpl. apply IH. destruct c; simpl.
  - by apply coerente_vertice.
  - by apply coerente_aresta.
Qed.

Lemma coerente_alcancavel b h cs :
  coerente (executa_todas cs (Grafo_init b h)).
Proof. apply coerente_executa_todas, coerente_init. Qed.

(** ** Observations as functions of the two adjacency maps *)

Lemma aresta_slot u v g :
  aresta u v g =
  match saida g !! u with
  | Some _ => Retorna (slot (saida g) u v)
  | None => Levanta (KeyError u)
  end.
Proof. unfold aresta, slot. by destruct (saida g !! u). Qed.

Lemma objetos_inserir_vertice x g :
  objetos (heap (inserir_vertice x g).2) =
  <[prox (heap g) := mkVerticeObj x false]> (objetos (heap g)).
Proof. rewrite inserir_vertice_eq. simpl. by destruct (e_direcionado g). Qed.

Lemma objetos_inserir_aresta u v x g :
  objetos (heap (inserir_aresta u v x g).2) = objetos (heap g).
Proof.
  rewrite inserir_aresta_eq. simpl. destruct (saida g !! u); [|done].
  by destruct (entrada _ !! v).
Qed.

Lemma objetos_executa_todas cs g v :
  (v < prox (heap g))%positive →
  objetos (heap (executa_todas cs g)) !! v = objetos (heap g) !! v.
Proof.
  revert g. induction cs as [|c cs IH]; intros g Hv; [done|]. simpl.
  destruct (executa_attrs g c) as (_ & _ & Hp).
  rewrite IH by (rewrite Hp; lia). destruct c as [x|a b x]; simpl.
  - rewrite objetos_inserir_vertice, lookup_insert_ne; [done|lia].
  - by rewrite objetos_inserir_aresta.
Qed.

(** Two states with the same attributes and the same dictionaries answer
    every query alike. *)
Lemma consultas_iguais g g' :
  saida g' = saida g → entrada g' = entrada g →
  e_direcionado g' = e_direcionado g →
  vertices g' = vertices g ∧ num_vertices g' = num_vertices g ∧
  num_arestas g' = num_arestas g ∧ arestas g' = arestas g ∧
  (∀ a b, aresta a b g' = aresta a b g) ∧
  (∀ w s, grau w s g' = grau w s g) ∧
  (∀ w s, arestas_incidentes w s g' = arestas_incidentes w s g).
Proof.
  intros HS HE Hd.
  unfold vertices, num_vertices, num_arestas, arestas, aresta, grau,
    arestas_incidentes. by rewrite HS, HE, Hd.
Qed.

Lemma arestas_mesmos_slots g g' :
  (∀ x y, slot (saida g') x y = slot (saida g) x y) →
  (∀ a, set_in a (arestas g') ↔ set_in a (arestas g)) ∧
  len (arestas g') = len (arestas g).
Proof.
  intros Hs.
  assert (Hi : ∀ i, is_Some (arestas g' !! i) ↔ is_Some (arestas g !! i)).
  { intros i. rewrite !arestas_lookup. unfold ids. rewrite !list_elem_of_fmap.
    split; intros ([[x y] a] & -> & Hin); exists (x, y, a); (split; [done|]);
      apply elem_of_slots; apply elem_of_slots in Hin; by rewrite ?Hs in *. }
  split; [intros a; apply Hi|]. unfold len.
  rewrite <- !(size_dom (D := gset ref)). f_equal. apply set_eq. intros i.
  rewrite !elem_of_dom. apply Hi.
Qed.

(** X1: in a graph reached by any calls, [inserir_vertice(x)] returns a
    vertex that was not in [vertices()] and now is, [num_vertices()] grows
    by 1, the vertex carries [x], both its degrees are 0 and it has no
    edge. *)
Theorem inserir_vertice_novo b h cs x :
  let g := executa_todas cs (Grafo_init b h) in
  ∃ v g', inserir_vertice x g = (Retorna v, g') ∧
    (v ∉ vertices g) ∧ (v ∈ vertices g') ∧
    num_vertices g' = S (num_vertices g) ∧
    elemento v g' = Some x ∧
    grau v true g' = Retorna 0 ∧ grau v false g' = Retorna 0 ∧
    arestas_incidentes v true g' = Retorna [] ∧
    ∀ w, aresta v w g' = Retorna None.
Proof.
  intros g. destruct (coerente_alcancavel b h cs) as (HlS & HlE & _). fold g in HlS, HlE.
  pose proof (objetos_inserir_vertice x g) as Ho.
  destruct (inserir_vertice_spec x g) as (g' & Heq & _ & _ & _ & HS & HE).
  rewrite Heq in Ho. simpl in Ho.
  exists (prox (heap g)), g'. split; [done|].
  pose proof (limitado_fresco _ _ HlS) as Hf.
  split; [|split; [|split; [|split; [|split; [|split; [|split]]]]]].
  - rewrite elem_of_vertices, Hf. by intros [? ?].
  - rewrite elem_of_vertices, HS, lookup_insert_eq. eauto.
  - unfold num_vertices. rewrite HS. by apply map_size_insert_None.
  - unfold elemento. by rewrite Ho, lookup_insert_eq.
  - rewrite grau_eq, HS, lookup_insert_eq. done.
  - rewrite grau_eq, HE, lookup_insert_eq. done.
  - unfold arestas_incidentes. rewrite HS, lookup_insert_eq.
    unfold values. by rewrite map_to_list_empty.
  - intros w. unfold aresta. rewrite HS, lookup_insert_eq. by rewrite lookup_empty.
Qed.

(** X2: there is no duplicate detection: a vertex inserted later, whatever
    calls came in between and even with the same payload, is a different
    vertex, and the earlier vertex keeps its payload. *)
Theorem vertices_distintos g x1 v1 g1 cs x2 v2 g2 :
  inserir_vertice x1 g = (Retorna v1, g1) →
  inserir_vertice x2 (executa_todas cs g1) = (Retorna v2, g2) →
  v1 ≠ v2 ∧ elemento v1 g2 = Some x1 ∧ elemento v2 g2 = Some x2.
Proof.
  intros H1 H2.
  pose proof (objetos_inserir_vertice x1 g) as Ho1.
  pose proof (objetos_inserir_vertice x2 (executa_todas cs g1)) as Ho2.
  destruct (inserir_vertice_spec x1 g) as (g1' & Heq1 & _ & _ & Hp1 & _).
  destruct (inserir_vertice_spec x2 (executa_todas cs g1))
    as (g2' & Heq2 & _).
  rewrite H1 in Heq1, Ho1. rewrite H2 in Heq2, Ho2.
  injection Heq1 as -> <-. injection Heq2 as -> <-. simpl in Ho1, Ho2.
  destruct (executa_todas_attrs cs g1) as (_ & _ & Hle).
  assert (Hlt : (prox (heap g) < prox (heap (executa_todas cs g1)))%positive)
    by lia.
  split; [lia|]. unfold elemento. rewrite Ho2. split.
  - rewrite lookup_insert_ne by lia.
    rewrite objetos_executa_todas by lia. by rewrite Ho1, lookup_insert_eq.
  - by rewrite lookup_insert_eq.
Qed.

Lemma vertices_distintos_par :
  let g := Grafo_init false heap_vazio in
  let g1 := (inserir_vertice (VStr "a") g).2 in
  let g2 := (inserir_vertice (VStr "a")
               (executa_todas [InserirAresta 2 2 VNone]%positive g1)).2 in
  2%positive ≠ 4%positive ∧
  elemento 2%positive g2 = Some (VStr "a") ∧
  elemento 4%positive g2 = Some (VStr "a").
Proof.
  intros g g1 g2.
  apply (vertices_distintos g (VStr "a") 2%positive g1
           [InserirAresta 2 2 VNone]%positive (VStr "a") 4%positive g2).
  - vm_compute. reflexivity.
  - vm_compute. reflexivity.
Defined.

(** X3: in a graph reached by any calls, [inserir_vertice] changes no
    edge: [num_arestas()], the members of [arestas()], and for every
    vertex already there [aresta], [grau] and [arestas_incidentes] are as
    before. *)
Theorem inserir_vertice_preserva b h cs x :
  let g := executa_todas cs (Grafo_init b h) in
  let g' := (inserir_vertice x g).2 in
  num_arestas g' = num_arestas g ∧
  len (arestas g') = len (arestas g) ∧
  (∀ a, set_in a (arestas g') ↔ set_in a (arestas g)) ∧
  (∀ u, u ∈ vertices g → u ∈ vertices g') ∧
  (∀ u w, u ∈ vertices g → aresta u w g' = aresta u w g) ∧
  (∀ u s, u ∈ vertices g →
     grau u s g' = grau u s g ∧
     arestas_incidentes u s g' = arestas_incidentes u s g).
Proof.
  intros g g'. destruct (coerente_alcancavel b h cs) as (HlS & HlE & Hk & _).
  fold g in HlS, HlE, Hk.
  destruct (inserir_vertice_spec x g) as (g1 & Heq & Hs & He & _ & HS & HE).
  unfold g'. rewrite Heq. simpl. clear g'.
  pose proof (limitado_fresco _ _ HlS) as HfS.
  pose proof (limitado_fresco _ _ HlE) as HfE.
  assert (Hd : e_direcionado g1 = e_direcionado g).
  { unfold e_direcionado. by rewrite Hs, He. }
  assert (Hslot : ∀ a c, slot (saida g1) a c = slot (saida g) a c).
  { intros. rewrite HS. by apply slot_insert_empty. }
  assert (Hne : ∀ u, u ∈ vertices g → prox (heap g) ≠ u).
  { intros u Hu%elem_of_vertices Hp. rewrite <- Hp, HfS in Hu.
    by destruct Hu. }
  destruct (arestas_mesmos_slots g g1 Hslot) as [Hin Hlen].
  split; [|split; [done|split; [done|split; [|split]]]].
  - unfold num_arestas. rewrite Hd, HS, soma_graus_insert by done.
    by rewrite map_size_empty.
  - intros u Hu. apply elem_of_vertices. rewrite HS, lookup_insert_ne by auto.
    by apply elem_of_vertices.
  - intros u w Hu. unfold aresta. by rewrite HS, lookup_insert_ne by auto.
  - intros u s Hu. unfold grau, arestas_incidentes.
    destruct s; rewrite ?HS, ?HE, lookup_insert_ne by auto; done.
Qed.

(** X4: when the origin [u] is not a vertex of the graph,
    [inserir_aresta(u, v)] raises [KeyError(u)], whatever [v] is, and
    leaves every query answering as before. *)
Theorem inserir_aresta_origem_desconhecida g u v x :
  u ∉ vertices g →
  ∃ g', inserir_aresta u v x g = (Levanta (KeyError u), g') ∧
    e_direcionado g' = e_direcionado g ∧
    vertices g' = vertices g ∧ num_vertices g' = num_vertices g ∧
    num_arestas g' = num_arestas g ∧ arestas g' = arestas g ∧
    (∀ a b, aresta a b g' = aresta a b g) ∧
    (∀ w s, grau w s g' = grau w s g) ∧
    (∀ w s, arestas_incidentes w s g' = arestas_incidentes w s g).
Proof.
  rewrite elem_of_vertices, <- eq_None_not_Some. intros Hu.
  destruct (inserir_aresta_spec u v x g) as (r & g' & Heq & Hs & He & _ & Hc).
  cbv zeta in Hc. rewrite Hu in Hc. destruct Hc as (-> & HS & HE).
  assert (Hd : e_direcionado g' = e_direcionado g).
  { unfold e_direcionado. by rewrite Hs, He. }
  exists g'. split; [done|]. split; [done|].
  by apply consultas_iguais.
Qed.

Lemma inserir_aresta_origem_desconhecida_par :
  ∃ g', inserir_aresta 9%positive 2%positive VNone (par false)
        = (Levanta (KeyError 9%positive), g') ∧
    e_direcionado g' = e_direcionado (par false) ∧
    vertices g' = vertices (par false) ∧
    num_vertices g' = num_vertices (par false) ∧
    num_arestas g' = num_arestas (par false) ∧
    arestas g' = arestas (par false) ∧
    (∀ a b, aresta a b g' = aresta a b (par false)) ∧
    (∀ w s, grau w s g' = grau w s (par false)) ∧
    (∀ w s, arestas_incidentes w s g' = arestas_incidentes w s (par false)).
Proof.
  apply (inserir_aresta_origem_desconhecida (par false) 9%positive 2%positive).
  vm_compute. nao_pertence.
Defined.

(** ** Incident edges and frames *)

Lemma length_values {A} (d : gmap ref A) : length (values d) = size d.
Proof. unfold values. by rewrite length_fmap, length_map_to_list. Qed.

(** The edge stored under a slot names its neighbour. *)
Lemma aponta_oposto dir d x y a :
  aponta dir d → slot d x y = Some a → oposto a x = y.
Proof.
  intros Hd Ha. unfold oposto.
  destruct (Hd _ _ _ Ha) as [[= Ho Hde]|[_ [= Ho Hde]]].
  - by rewrite Ho, decide_True.
  - rewrite Ho, Hde. by case_decide.
Qed.

Lemma aponta_entrada_oposto dir d y x a :
  aponta_entrada dir d → slot d y x = Some a → oposto a y = x.
Proof.
  intros Hd Ha. unfold oposto.
  destruct (Hd _ _ _ Ha) as [[= Ho Hde]|[_ [= Ho Hde]]].
  - rewrite Ho, Hde. by case_decide.
  - by rewrite Ho, decide_True.
Qed.

(** X7: in a graph reached by any calls, a vertex of [vertices()] has an
    entry in both adjacency maps: [grau(v, saida=True)] and
    [grau(v, saida=False)] return together or raise [KeyError] together. *)
Theorem chaves_dos_dois_mapas b h cs v :
  let g := executa_todas cs (Grafo_init b h) in
  (v ∈ vertices g ↔ pertence g v) ∧
  ((∃ n, grau v true g = Retorna n) ↔ (∃ n, grau v false g = Retorna n)) ∧
  (grau v true g = Levanta (KeyError v) ↔ grau v false g = Levanta (KeyError v)).
Proof.
  intros g. destruct (coerente_alcancavel b h cs) as (_ & _ & Hk & _).
  fold g in Hk. specialize (Hk v). rewrite elem_of_vertices. unfold pertence.
  rewrite !grau_eq. split; [tauto|].
  destruct (saida g !! v) as [m|] eqn:Hm, (entrada g !! v) as [m'|] eqn:Hm';
    simpl.
  - split; [split; eauto|done].
  - destruct Hk as [Hk _]. destruct Hk as [? [=]]. eauto.
  - destruct Hk as [_ Hk]. destruct Hk as [? [=]]. eauto.
  - split; [|done]. split; intros [? [=]].
Qed.

(** X8: in a graph reached by any calls, [arestas_incidentes(v)] yields
    [grau(v)] edges without repetition; each of them is the edge
    [aresta(v, a.oposto(v))], is in [arestas()], and has [v] as its origin
    (or, in an undirected graph, possibly as its destination). *)
Theorem arestas_incidentes_saida b h cs v l :
  let g := executa_todas cs (Grafo_init b h) in
  arestas_incidentes v true g = Retorna l →
  grau v true g = Retorna (length l) ∧
  NoDup l ∧
  ∀ a, a ∈ l →
    aresta v (oposto a v) g = Retorna (Some a) ∧
    set_in a (arestas g) ∧
    (_origem a = v ∨ (e_direcionado g = false ∧ _destino a = v)).
Proof.
  intros g. destruct (coerente_alcancavel b h cs) as (_ & _ & _ & Ha & _ & _).
  fold g in Ha. unfold arestas_incidentes.
  destruct (saida g !! v) as [m|] eqn:Hm; [|done]. intros [= <-].
  assert (Hslot : ∀ k a, m !! k = Some a → slot (saida g) v k = Some a).
  { intros k a Hk. unfold slot. by rewrite Hm. }
  split; [|split].
  - by rewrite grau_eq, Hm, length_values.
  - unfold values. apply NoDup_fmap_2_strong; [|apply NoDup_map_to_list].
    intros [k a] [k' a'] Hin%elem_of_map_to_list Hin'%elem_of_map_to_list Heq.
    simpl in Heq. subst a'. f_equal.
    rewrite <- (aponta_oposto _ _ _ _ _ Ha (Hslot _ _ Hin)).
    by rewrite <- (aponta_oposto _ _ _ _ _ Ha (Hslot _ _ Hin')).
  - intros a [k Hk]%elem_of_values. specialize (Hslot _ _ Hk).
    rewrite (aponta_oposto _ _ _ _ _ Ha Hslot). split; [|split].
    + by rewrite aresta_slot, Hm, Hslot.
    + apply arestas_lookup, list_elem_of_fmap. exists (v, k, a).
      split; [done|]. by apply elem_of_slots.
    + destruct (Ha _ _ _ Hslot) as [[= ? ?]|[? [= ? ?]]]; eauto.
Qed.

Lemma arestas_incidentes_saida_par :
  let cs := [InserirVertice VNone; InserirVertice VNone;
             InserirAresta 2 3 VNone]%positive in
  let g := executa_todas cs (Grafo_init false heap_vazio) in
  let l := [mkAresta 4%positive 2%positive 3%positive VNone] in
  grau 3%positive true g = Retorna (length l) ∧
  NoDup l ∧
  ∀ a, a ∈ l →
    aresta 3%positive (oposto a 3%positive) g = Retorna (Some a) ∧
    set_in a (arestas g) ∧
    (_origem a = 3%positive ∨
     (e_direcionado g = false ∧ _destino a = 3%positive)).
Proof.
  intros cs g l.
  apply (arestas_incidentes_saida false heap_vazio cs 3%positive l).
  vm_compute. reflexivity.
Defined.

(** X12: in an undirected graph the argument [saida] makes no difference:
    [grau(v, False)] is [grau(v)] and [arestas_incidentes(v, False)] is
    [arestas_incidentes(v)]. *)
Theorem nao_direcionado_sem_sentido g v :
  e_direcionado g = false →
  grau v false g = grau v true g ∧
  arestas_incidentes v false g = arestas_incidentes v true g.
Proof.
  intros Hd. unfold grau, arestas_incidentes. by rewrite (entrada_saida g Hd).
Qed.

Lemma nao_direcionado_sem_sentido_par :
  grau 2%positive false (par false) = grau 2%positive true (par false) ∧
  arestas_incidentes 2%positive false (par false)
  = arestas_incidentes 2%positive true (par false).
Proof.
  apply (nao_direcionado_sem_sentido (par false) 2%positive).
  vm_compute. reflexivity.
Defined.

(** X5: in an undirected graph, [inserir_aresta(u, v)] with [u] a vertex
    and [v] not one raises [KeyError(v)] after storing the edge one way:
    [aresta(u, v)] returns it and it is in [arestas()], while
    [aresta(v, u)] and [grau(v)] raise, [v] not having become a vertex. *)
Theorem inserir_aresta_destino_desconhecido g u v x :
  e_direcionado g = false → u ∈ vertices g → v ∉ vertices g →
  ∃ a g', inserir_aresta u v x g = (Levanta (KeyError v), g') ∧
    aresta u v g' = Retorna (Some a) ∧ peso a = x ∧
    set_in a (arestas g') ∧
    aresta v u g' = Levanta (KeyError v) ∧
    grau v true g' = Levanta (KeyError v) ∧
    (∀ w, w ∈ vertices g' ↔ w ∈ vertices g).
Proof.
  intros Hd. rewrite !elem_of_vertices, <- eq_None_not_Some. intros Hu Hv.
  destruct (inserir_aresta_spec u v x g) as (r & g' & Heq & Hs & He & _ & Hc).
  cbv zeta in Hc. destruct Hu as [mu Hmu]. rewrite Hmu, Hd in Hc.
  rewrite (proj2 (lookup_alter_None _ _ _ _) Hv) in Hc.
  destruct Hc as (-> & HS & _).
  set (a := mkAresta (prox (heap g)) u v x) in *.
  assert (Hslot : slot (saida g') u v = Some a).
  { rewrite HS, slot_alter by (by rewrite Hmu). by rewrite decide_True. }
  exists a, g'. split; [done|]. split; [|split; [done|split; [|split; [|split]]]].
  - rewrite aresta_slot, Hslot, HS.
    by rewrite (lookup_alter_eq _ _ u), Hmu.
  - apply arestas_lookup, list_elem_of_fmap. exists (u, v, a).
    split; [done|]. by apply elem_of_slots.
  - unfold aresta. by rewrite HS, (proj2 (lookup_alter_None _ _ _ _) Hv).
  - unfold grau. by rewrite HS, (proj2 (lookup_alter_None _ _ _ _) Hv).
  - intros w. rewrite !elem_of_vertices, HS. apply lookup_alter_is_Some.
Qed.

Lemma inserir_aresta_destino_desconhecido_par :
  ∃ a g', inserir_aresta 2%positive 9%positive (VInt 1) (par false)
          = (Levanta (KeyError 9%positive), g') ∧
    aresta 2%positive 9%positive g' = Retorna (Some a) ∧ peso a = VInt 1 ∧
    set_in a (arestas g') ∧
    aresta 9%positive 2%positive g' = Levanta (KeyError 9%positive) ∧
    grau 9%positive true g' = Levanta (KeyError 9%positive) ∧
    (∀ w, w ∈ vertices g' ↔ w ∈ vertices (par false)).
Proof.
  apply (inserir_aresta_destino_desconhecido (par false) 2%positive 9%positive).
  - vm_compute. reflexivity.
  - vm_compute. repeat constructor.
  - vm_compute. nao_pertence.
Defined.

(** X6: a successful [inserir_aresta(u, v)] leaves the vertices and their
    payloads as they were, leaves [aresta(y, z)] unchanged for every pair
    other than [(u, v)] (and [(v, u)] when the graph is undirected), and
    changes no degree of a vertex other than [u] and [v]. *)
Theorem inserir_aresta_preserva g u v x a g' :
  inserir_aresta u v x g = (Retorna a, g') →
  (∀ w, w ∈ vertices g' ↔ w ∈ vertices g) ∧
  num_vertices g' = num_vertices g ∧
  (∀ w, elemento w g' = elemento w g) ∧
  (∀ y z, (y, z) ≠ (u, v) →
          (e_direcionado g = false → (y, z) ≠ (v, u)) →
          aresta y z g' = aresta y z g) ∧
  (∀ w s, w ≠ u → w ≠ v → grau w s g' = grau w s g).
Proof.
  intros Heq. pose proof (objetos_inserir_aresta u v x g) as Ho.
  destruct (inserir_aresta_spec u v x g) as (r & g1 & Heq' & _ & _ & _ & Hc).
  rewrite Heq in Heq', Ho. injection Heq' as <- <-. simpl in Ho.
  cbv zeta in Hc. set (b := mkAresta (prox (heap g)) u v x) in *.
  destruct (saida g !! u) as [mu|] eqn:Hmu; [|by destruct Hc].
  assert (Hsu : is_Some (saida g !! u)) by (by rewrite Hmu).
  set (S1 := alter (<[v := b]>) u (saida g)) in *.
  assert (∃ d, saida g' = d ∧
            (∀ w, is_Some (d !! w) ↔ is_Some (saida g !! w)) ∧
            (∀ w, w ≠ u → w ≠ v → d !! w = saida g !! w) ∧
            (∀ y z, (y, z) ≠ (u, v) →
               (e_direcionado g = false → (y, z) ≠ (v, u)) →
               slot d y z = slot (saida g) y z) ∧
            (∀ w, w ≠ u → w ≠ v → entrada g' !! w = entrada g !! w))
    as (d & HS & Hkeys & Hsz & Hslot & HszE).
  { destruct (e_direcionado g) eqn:Hd.
    - destruct (entrada g !! v) as [mv|] eqn:Hmv; [|by destruct Hc].
      destruct Hc as (_ & HE & HS). exists S1. split; [done|].
      split; [intros; apply lookup_alter_is_Some|].
      split; [intros; by apply lookup_alter_ne|]. split.
      + intros y z Hne _. unfold S1. rewrite slot_alter by done.
        rewrite decide_False; [done|]. intros [-> ->]. done.
      + intros w _ Hwv. rewrite HE. by apply lookup_alter_ne.
    - destruct (S1 !! v) as [mv|] eqn:Hmv; [|by destruct Hc].
      destruct Hc as (_ & HE & HS). exists (alter (<[u := b]>) v S1).
      split; [done|].
      split; [intros; unfold S1; by rewrite !lookup_alter_is_Some|].
      split; [intros; unfold S1; by rewrite !lookup_alter_ne|]. split.
      + intros y z Hne Hne'. rewrite slot_alter by (by rewrite Hmv).
        rewrite decide_False by (intros [-> ->]; by apply Hne').
        unfold S1. rewrite slot_alter by done. rewrite decide_False; [done|].
        intros [-> ->]. done.
      + intros w Hwu Hwv. rewrite HE, (entrada_saida g Hd).
        unfold S1. by rewrite !lookup_alter_ne. }
  split; [|split; [|split; [|split]]].
  - intros w. rewrite !elem_of_vertices, HS. apply Hkeys.
  - unfold num_vertices. rewrite HS, <- !(size_dom (D := gset ref)). f_equal.
    apply set_eq. intros w. rewrite !elem_of_dom. apply Hkeys.
  - intros w. unfold elemento. by rewrite Ho.
  - intros y z Hne Hne'. rewrite !aresta_slot, HS, Hslot by done.
    specialize (Hkeys y).
    destruct (d !! y), (saida g !! y); try done.
    + destruct Hkeys as [Hk _]. by destruct Hk.
    + destruct Hkeys as [_ Hk]. by destruct Hk.
  - intros w s Hwu Hwv. unfold grau.
    destruct s; by rewrite ?HS, ?Hsz, ?HszE.
Qed.

Lemma inserir_aresta_preserva_par :
  let g := par true in
  let a := mkAresta 5%positive 3%positive 4%positive VNone in
  let g' := (inserir_aresta 3%positive 4%positive VNone g).2 in
  (∀ w, w ∈ vertices g' ↔ w ∈ vertices g) ∧
  num_vertices g' = num_vertices g ∧
  (∀ w, elemento w g' = elemento w g) ∧
  (∀ y z, (y, z) ≠ (3%positive, 4%positive) →
          (e_direcionado g = false → (y, z) ≠ (4%positive, 3%positive)) →
          aresta y z g' = aresta y z g) ∧
  (∀ w s, w ≠ 3%positive → w ≠ 4%positive → grau w s g' = grau w s g).
Proof.
  intros g a g'.
  apply (inserir_aresta_preserva g 3%positive 4%positive VNone a g').
  vm_compute. reflexivity.
Defined.

(** ** Graphs whose edges join vertices of the graph *)

Lemma bem_construido_coerente g : bem_construido g → coerente g.
Proof.
  induction 1.
  - apply coerente_init.
  - by apply coerente_vertice.
  - by apply coerente_aresta.
Qed.

Lemma bem_construido_espelhado g : bem_construido g → espelhado g.
Proof.
  induction 1 as [b h|g x Hg IH|g u v x Hg IH [Hu _] [Hv' Hv]].
  - intros u v. by rewrite saida_init, entrada_init, !slot_empty.
  - destruct (bem_construido_coerente g Hg) as (HlS & HlE & _).
    destruct (inserir_vertice_spec x g) as (g' & -> & _ & _ & _ & HS & HE).
    simpl. intros u v. rewrite HS, HE.
    rewrite !slot_insert_empty by (by apply limitado_fresco). apply IH.
  - destruct (inserir_aresta_sucesso u v x g Hu Hv)
      as (g' & -> & _ & _ & _ & HS & HE).
    simpl. set (a := mkAresta (prox (heap g)) u v x) in *.
    intros y z. rewrite HS, HE. destruct (e_direcionado g) eqn:Hd.
    + rewrite !slot_alter by done. specialize (IH y z).
      repeat case_decide; naive_solver.
    + rewrite !slot_alter2 by done. specialize (IH y z).
      rewrite (entrada_saida g Hd) in IH.
      repeat case_decide; naive_solver.
Qed.

Lemma bem_construido_par_ligado :
  bem_construido (inserir_aresta 3%positive 4%positive VNone (par true)).2.
Proof.
  apply bem_construido_aresta.
  - change (bem_construido
              (inserir_vertice (VStr "v")
                 (inserir_vertice (VStr "u")
                    (Grafo_init true heap_vazio)).2).2).
    apply bem_construido_vertice, bem_construido_vertice, bem_construido_init.
  - vm_compute; split; eauto.
  - vm_compute; split; eauto.
Defined.

Lemma construido_par_ligado :
  construido (inserir_aresta 2%positive 3%positive VNone (par false)).2.
Proof.
  apply construido_aresta.
  - change (construido
              (inserir_vertice (VStr "v")
                 (inserir_vertice (VStr "u")
                    (Grafo_init false heap_vazio)).2).2).
    apply construido_vertice, construido_vertice, construido_init.
  - intros _. vm_compute. repeat split; eauto; discriminate.
Defined.

(** ** Sums of degrees *)


Lemma sum_list_with_ext_in {A} (f f' : A → nat) l :
  (∀ x, x ∈ l → f x = f' x) → sum_list_with f l = sum_list_with f' l.
Proof.
  induction l as [|x l IH]; intros Hf; [done|]. simpl.
  rewrite (Hf x) by left. rewrite IH; [done|]. intros y Hy. apply Hf. by right.
Qed.

Lemma sum_list_with_fmap {A B} (f : B → nat) (h : A → B) l :
  sum_list_with f (h <$> l) = sum_list_with (λ x, f (h x)) l.
Proof. induction l as [|x l IH]; [done|]. csimpl. by rewrite IH. Qed.

Lemma soma_grau_saida g : soma_grau true g = soma_graus (saida g).
Proof.
  unfold soma_grau, soma_graus, vertices. rewrite sum_list_with_fmap.
  apply sum_list_with_ext_in. intros [k m] Hin%elem_of_map_to_list. simpl.
  by rewrite grau_eq, Hin.
Qed.

Lemma soma_grau_entrada g :
  (∀ v, is_Some (saida g !! v) ↔ is_Some (entrada g !! v)) →
  soma_grau false g = soma_graus (entrada g).
Proof.
  intros Hk. unfold soma_grau, soma_graus, vertices.
  assert (Hp : (map_to_list (saida g)).*1 ≡ₚ (map_to_list (entrada g)).*1).
  { apply NoDup_Permutation; [apply NoDup_fst_map_to_list..|].
    intros v. rewrite !list_elem_of_fmap. split.
    - intros ([k m] & -> & Hin%elem_of_map_to_list).
      destruct (proj1 (Hk k)) as [m' Hm']; [by eexists|].
      exists (k, m'). split; [done|]. by apply elem_of_map_to_list.
    - intros ([k m] & -> & Hin%elem_of_map_to_list).
      destruct (proj2 (Hk k)) as [m' Hm']; [by eexists|].
      exists (k, m'). split; [done|]. by apply elem_of_map_to_list. }
  rewrite Hp, sum_list_with_fmap.
  apply sum_list_with_ext_in. intros [k m] Hin%elem_of_map_to_list. simpl.
  by rewrite grau_eq, Hin.
Qed.

Lemma soma_graus_espelhado g :
  espelhado g → soma_graus (entrada g) = soma_graus (saida g).
Proof.
  intros He. rewrite <- !length_slots.
  rewrite <- (length_fmap (λ t : Vertice * Vertice * Aresta, (t.1.2, t.1.1, t.2))
                (slots (saida g))).
  apply Permutation_length, NoDup_Permutation.
  - apply NoDup_slots.
  - apply NoDup_fmap_2_strong; [|apply NoDup_slots].
    intros [[x y] a] [[x' y'] a'] _ _ [= -> -> ->]. done.
  - intros [[y x] a]. rewrite elem_of_slots, list_elem_of_fmap. split.
    + intros Ha. exists (x, y, a). split; [done|].
      apply elem_of_slots. by rewrite <- He.
    + intros ([[x' y'] a'] & [= -> -> ->] & Hin%elem_of_slots).
      by rewrite He.
Qed.

(** X10: in a graph whose edges were all inserted between vertices of the
    graph, the incoming degrees sum to as much as the outgoing degrees;
    when the graph is directed, both sums are [num_arestas()]. *)
Theorem soma_dos_graus_direcionado g :
  bem_construido g →
  soma_grau false g = soma_grau true g ∧
  (e_direcionado g = true →
   soma_grau true g = num_arestas g ∧ soma_grau false g = num_arestas g).
Proof.
  intros Hg. pose proof (bem_construido_espelhado g Hg) as He.
  destruct (bem_construido_coerente g Hg) as (_ & _ & Hk & _).
  rewrite soma_grau_saida, soma_grau_entrada, soma_graus_espelhado by done.
  split; [done|]. intros Hd. unfold num_arestas. by rewrite Hd.
Qed.

Lemma soma_dos_graus_direcionado_par :
  let g := (inserir_aresta 3%positive 4%positive VNone (par true)).2 in
  soma_grau false g = soma_grau true g ∧
  (e_direcionado g = true →
   soma_grau true g = num_arestas g ∧ soma_grau false g = num_arestas g).
Proof.
  intros g. apply (soma_dos_graus_direcionado g).
  apply bem_construido_par_ligado.
Defined.

Lemma num_arestas_invariante g :
  invariante g → num_arestas g = len (arestas g).
Proof.
  intros (_ & Hinj & Hsim). unfold num_arestas.
  destruct (e_direcionado g).
  - symmetry. by apply len_arestas_direcionado.
  - rewrite len_arestas_nao_direcionado by auto.
    rewrite Nat.mul_comm. by rewrite Nat.div_mul.
Qed.

(** X11: in an undirected graph built without loops, between vertices of
    the graph, the degrees sum to twice [num_arestas()], which is twice
    [len(arestas())]. *)
Theorem soma_dos_graus_nao_direcionado g :
  construido g → e_direcionado g = false →
  soma_grau true g = 2 * num_arestas g ∧
  soma_grau true g = 2 * len (arestas g).
Proof.
  intros Hg%construido_invariante Hd.
  rewrite (num_arestas_invariante g Hg). destruct Hg as (_ & Hinj & Hsim).
  rewrite Hd in Hinj. rewrite soma_grau_saida.
  by rewrite (len_arestas_nao_direcionado g Hinj (Hsim Hd)).
Qed.

Lemma soma_dos_graus_nao_direcionado_par :
  let g := (inserir_aresta 2%positive 3%positive VNone (par false)).2 in
  soma_grau true g = 2 * num_arestas g ∧
  soma_grau true g = 2 * len (arestas g).
Proof.
  intros g. apply (soma_dos_graus_nao_direcionado g).
  - apply construido_par_ligado.
  - vm_compute. reflexivity.
Defined.

(** X9: in a graph whose edges were all inserted between vertices of the
    graph, [arestas_incidentes(v, saida=False)] yields exactly the edges
    that [aresta(u, v)] returns for some [u], each being
    [aresta(a.oposto(v), v)]. *)
Theorem arestas_incidentes_entrada g v l :
  bem_construido g →
  arestas_incidentes v false g = Retorna l →
  grau v false g = Retorna (length l) ∧
  (∀ a, a ∈ l ↔ ∃ u, aresta u v g = Retorna (Some a)) ∧
  (∀ a, a ∈ l → aresta (oposto a v) v g = Retorna (Some a)).
Proof.
  intros Hg. pose proof (bem_construido_espelhado g Hg) as He.
  destruct (bem_construido_coerente g Hg) as (_ & _ & _ & _ & Ha & _).
  unfold arestas_incidentes.
  destruct (entrada g !! v) as [m|] eqn:Hm; [|done]. intros [= <-].
  assert (Hslot : ∀ k a, m !! k = Some a ↔ slot (saida g) k v = Some a).
  { intros k a. rewrite <- He. unfold slot. by rewrite Hm. }
  assert (Har : ∀ u a, aresta u v g = Retorna (Some a) ↔
                       slot (saida g) u v = Some a).
  { intros u a. rewrite aresta_slot. unfold slot.
    destruct (saida g !! u); simpl; [|done]. split; congruence. }
  split; [|split].
  - by rewrite grau_eq, Hm, length_values.
  - intros a. rewrite elem_of_values. split; intros [k Hk]; exists k.
    + by apply Har, Hslot.
    + by apply Hslot, Har.
  - intros a [k Hk]%elem_of_values.
    assert (Hs : slot (entrada g) v k = Some a) by (unfold slot; by rewrite Hm).
    rewrite (aponta_entrada_oposto _ _ _ _ _ Ha Hs). by apply Har, Hslot.
Qed.

Lemma arestas_incidentes_entrada_par :
  let g := (inserir_aresta 3%positive 4%positive VNone (par true)).2 in
  let l := [mkAresta 5%positive 3%positive 4%positive VNone] in
  grau 4%positive false g = Retorna (length l) ∧
  (∀ a, a ∈ l ↔ ∃ u, aresta u 4%positive g = Retorna (Some a)) ∧
  (∀ a, a ∈ l → aresta (oposto a 4%positive) 4%positive g = Retorna (Some a)).
Proof.
  intros g l. apply (arestas_incidentes_entrada g 4%positive l).
  - apply bem_construido_par_ligado.
  - vm_compute. reflexivity.
Defined.

(** ** The set of edges *)

Lemma aresta_Some u v a g :
  aresta u v g = Retorna (Some a) ↔ slot (saida g) u v = Some a.
Proof.
  rewrite aresta_slot. unfold slot.
  destruct (saida g !! u); simpl; [|done]. split; congruence.
Qed.

Lemma set_add_lookup_Some s a i b :
  set_add s a !! i = Some b → s !! i = Some b ∨ (b = a ∧ i = a_id a).
Proof.
  unfold set_add. destruct (s !! a_id a) eqn:Ha; [by left|].
  rewrite lookup_insert. case_decide; [|by left]. intros [= <-]. by right.
Qed.

Lemma set_update_lookup_Some l s i b :
  set_update s l !! i = Some b → s !! i = Some b ∨ (b ∈ l ∧ a_id b = i).
Proof.
  unfold set_update. revert s. induction l as [|a l IH]; intros s; simpl.
  - by left.
  - intros [[?|[-> ->]]%set_add_lookup_Some|[? ?]]%IH.
    + by left.
    + right. split; [left|done].
    + right. split; [by right|done].
Qed.

Lemma foldl_update_lookup_Some (l : list (gmap ref Aresta)) s i b :
  foldl (λ res m, set_update res (values m)) s l !! i = Some b →
  s !! i = Some b ∨ ∃ m, m ∈ l ∧ b ∈ values m ∧ a_id b = i.
Proof.
  revert s. induction l as [|m l IH]; intros s; simpl.
  - by left.
  - intros [[?|[? ?]]%set_update_lookup_Some|(m' & ? & ? & ?)]%IH.
    + by left.
    + right. exists m. split; [left|done].
    + right. exists m'. split; [by right|done].
Qed.

Lemma arestas_lookup_Some g i b :
  arestas g !! i = Some b →
  a_id b = i ∧ ∃ x y, slot (saida g) x y = Some b.
Proof.
  unfold arestas. intros [Hb|(m & Hm & Hb & Hi)]%foldl_update_lookup_Some.
  - by rewrite lookup_empty in Hb.
  - split; [done|]. apply elem_of_values in Hm as [x Hx].
    apply elem_of_values in Hb as [y Hy]. exists x, y. unfold slot.
    by rewrite Hx.
Qed.

Lemma set_in_slot g a x y :
  slot (saida g) x y = Some a → set_in a (arestas g).
Proof.
  intros Ha. apply arestas_lookup, list_elem_of_fmap. exists (x, y, a).
  split; [done|]. by apply elem_of_slots.
Qed.

Lemma set_in_inv g a :
  set_in a (arestas g) →
  ∃ x y b, slot (saida g) x y = Some b ∧ a_id b = a_id a.
Proof.
  intros ([[x y] b] & Hid & Hin%elem_of_slots)%arestas_lookup%list_elem_of_fmap.
  by exists x, y, b.
Qed.

(** X14: in a graph reached by any calls, the members of [arestas()] are
    exactly the edges that [aresta(u, v)] returns for some [u] and [v]. *)
Theorem arestas_sao_as_guardadas b h cs a :
  let g := executa_todas cs (Grafo_init b h) in
  arestas g !! a_id a = Some a ↔ ∃ u v, aresta u v g = Retorna (Some a).
Proof.
  intros g. destruct (coerente_alcancavel b h cs) as (_ & _ & _ & _ & _ & Hu).
  fold g in Hu. split.
  - intros (_ & x & y & Hs)%arestas_lookup_Some. exists x, y.
    by apply aresta_Some.
  - intros (x & y & Hs%aresta_Some).
    destruct (set_in_slot _ _ _ _ Hs) as [c Hc].
    destruct (arestas_lookup_Some _ _ _ Hc) as (Hid & x' & y' & Hs').
    rewrite Hc. f_equal. by eapply Hu.
Qed.

(** X15: in a graph whose edges were all inserted between vertices of the
    graph, every edge of [arestas()] has both endpoints in the graph and is
    the edge [aresta(origin, destination)]; in an undirected graph it is
    also [aresta(destination, origin)]. *)
Theorem arestas_extremos_pertencem g a :
  bem_construido g →
  arestas g !! a_id a = Some a →
  pertence g (_origem a) ∧ pertence g (_destino a) ∧
  aresta (_origem a) (_destino a) g = Retorna (Some a) ∧
  (e_direcionado g = false →
   aresta (_destino a) (_origem a) g = Retorna (Some a)).
Proof.
  intros Hg (_ & x & y & Hs)%arestas_lookup_Some.
  pose proof (bem_construido_espelhado g Hg) as He.
  destruct (bem_construido_coerente g Hg) as (_ & _ & Hk & Ha & _).
  assert (Hkey : ∀ p q c, slot (saida g) p q = Some c → pertence g p ∧ pertence g q).
  { intros p q c Hc. pose proof Hc as Hc'. rewrite <- He in Hc'.
    unfold slot in Hc, Hc'. unfold pertence.
    destruct (saida g !! p) eqn:Hp; [|done].
    destruct (entrada g !! q) eqn:Hq; [|done].
    rewrite <- !Hk, (Hk q), Hp, Hq. eauto. }
  destruct (Hkey _ _ _ Hs) as [Hx Hy].
  assert (Hsym : e_direcionado g = false → slot (saida g) y x = Some a).
  { intros Hd. rewrite <- He, (entrada_saida g Hd). done. }
  destruct (Ha _ _ _ Hs) as [[= -> ->]|[Hd [= -> ->]]].
  - rewrite !aresta_Some. eauto.
  - rewrite !aresta_Some. eauto.
Qed.

Lemma arestas_extremos_pertencem_par :
  let g := (inserir_aresta 3%positive 4%positive VNone (par true)).2 in
  let a := mkAresta 5%positive 3%positive 4%positive VNone in
  pertence g (_origem a) ∧ pertence g (_destino a) ∧
  aresta (_origem a) (_destino a) g = Retorna (Some a) ∧
  (e_direcionado g = false →
   aresta (_destino a) (_origem a) g = Retorna (Some a)).
Proof.
  intros g a. apply (arestas_extremos_pertencem g a).
  - apply bem_construido_par_ligado.
  - vm_compute. reflexivity.
Defined.

Lemma construido_coerente g : construido g → coerente g.
Proof.
  induction 1.
  - apply coerente_init.
  - by apply coerente_vertice.
  - by apply coerente_aresta.
Qed.

(** X13: in a graph built by calls that, when it is undirected, join
    distinct vertices of the graph, inserting an edge over an existing one
    replaces it: the new edge is in [arestas()], the old one is no longer,
    and [num_arestas()] and [len(arestas())] are unchanged. *)
Theorem inserir_aresta_substitui g u v x a0 :
  construido g → pertence g u → pertence g v →
  (e_direcionado g = false → u ≠ v) →
  aresta u v g = Retorna (Some a0) →
  ∃ a g', inserir_aresta u v x g = (Retorna a, g') ∧
    set_in a (arestas g') ∧ ¬ set_in a0 (arestas g') ∧
    num_arestas g' = num_arestas g ∧
    len (arestas g') = len (arestas g).
Proof.
  intros Hg Hu Hv Hne Ha0%aresta_Some.
  pose proof (construido_invariante g Hg) as Hinv.
  assert (Hinv' : invariante (inserir_aresta u v x g).2).
  { apply invariante_aresta; [done|]. intros Hd. auto. }
  destruct Hinv as ([_ Hlim] & Hinj & Hsim).
  destruct Hu as [Hu _]. destruct Hv as [Hv' Hv].
  destruct (inserir_aresta_sucesso u v x g Hu Hv)
    as (g' & Heq & Hs & He & _ & HS & _).
  rewrite Heq in Hinv'. simpl in Hinv'.
  set (a := mkAresta (prox (heap g)) u v x) in *.
  assert (Hd : e_direcionado g' = e_direcionado g).
  { unfold e_direcionado. by rewrite Hs, He. }
  assert (Hnum : num_arestas g' = num_arestas g).
  { unfold num_arestas. rewrite Hd, HS. destruct (e_direcionado g) eqn:Hdir.
    - by rewrite soma_graus_alter, Ha0.
    - destruct (Hsim eq_refl _ _ _ Ha0) as [Huv Hvu].
      rewrite soma_graus_alter by (by rewrite lookup_alter_is_Some).
      rewrite slot_alter by done. rewrite decide_False by (intros [? ?]; done).
      rewrite Hvu. by rewrite soma_graus_alter, Ha0. }
  assert (Hnew : ∀ y z,
            slot (saida g') y z =
            if decide ((y = u ∧ z = v) ∨
                       (e_direcionado g = false ∧ y = v ∧ z = u))
            then Some a else slot (saida g) y z).
  { intros y z. rewrite HS. destruct (e_direcionado g).
    - rewrite slot_alter by done. repeat case_decide; naive_solver.
    - rewrite slot_alter2 by done. repeat case_decide; naive_solver. }
  exists a, g'. split; [done|]. split; [|split; [|split; [done|]]].
  - apply (set_in_slot g' a u v). rewrite Hnew. by rewrite decide_True by auto.
  - intros (y & z & c & Hc & Hid)%set_in_inv. rewrite Hnew in Hc.
    case_decide as Hcase.
    + injection Hc as <-. specialize (Hlim _ _ _ Ha0). simpl in Hid. lia.
    + destruct (Hinj _ _ _ _ _ _ Hc Ha0 Hid) as [[-> ->]|(Hdir & -> & ->)];
        apply Hcase; auto.
  - rewrite <- (num_arestas_invariante g' Hinv'), Hnum.
    apply num_arestas_invariante. by apply construido_invariante.
Qed.

Lemma inserir_aresta_substitui_par :
  let g := (inserir_aresta 2%positive 3%positive VNone (par false)).2 in
  let a0 := mkAresta 4%positive 2%positive 3%positive VNone in
  ∃ a g', inserir_aresta 2%positive 3%positive (VInt 8) g = (Retorna a, g') ∧
    set_in a (arestas g') ∧ ¬ set_in a0 (arestas g') ∧
    num_arestas g' = num_arestas g ∧
    len (arestas g') = len (arestas g).
Proof.
  intros g a0.
  apply (inserir_aresta_substitui g 2%positive 3%positive (VInt 8) a0).
  - apply construido_par_ligado.
  - vm_compute. split; eauto.
  - vm_compute. split; eauto.
  - intros _. discriminate.
  - vm_compute. reflexivity.
Defined.

(** ** [importar_txt] *)

Section Str_lemmas.
Context {C : Type} `{EqDecision C}.
Implicit Types (s t : list C) (sep c : C).

Lemma split_nao_vazio sep s : str_split sep s ≠ [].
Proof.
  destruct s as [|c s]; simpl; [done|].
  case_decide; [done|]. by destruct (str_split sep s).
Qed.

Lemma split_sem_sep sep s : sep ∉ s → str_split sep s = [s].
Proof.
  induction s as [|c s IH]; [done|]. intros Hs. simpl.
  rewrite decide_False by (intros ->; apply Hs; left).
  rewrite IH; [done|]. intros ?. apply Hs. by right.
Qed.

Lemma split_app_sep sep s t :
  sep ∉ s → str_split sep (s ++ sep :: t) = s :: str_split sep t.
Proof.
  induction s as [|c s IH]; intros Hs; simpl.
  - by rewrite decide_True.
  - rewrite decide_False by (intros ->; apply Hs; left).
    rewrite IH; [done|]. intros ?. apply Hs. by right.
Qed.

(** Every piece is free of the separator and made of characters of [s]. *)
Lemma split_pecas sep s :
  Forall (λ t, (sep ∉ t) ∧ ∀ c, c ∈ t → c ∈ s) (str_split sep s).
Proof.
  induction s as [|c s IH]; simpl.
  - repeat constructor; [by intros []%elem_of_nil|by intros ? []%elem_of_nil].
  - case_decide as Hc.
    + constructor;
        [split; [by intros []%elem_of_nil|by intros ? []%elem_of_nil]|].
      eapply Forall_impl; [exact IH|]. intros t [? Ht]. split; [done|].
      intros c' ?. right. by apply Ht.
    + pose proof (split_nao_vazio sep s) as Hn. revert IH.
      destruct (str_split sep s) as [|p ps]; [done|]. intros IH.
      inversion IH as [|?? [Hp Hp'] Hps]; subst. constructor.
      * split.
        -- intros [->|?]%elem_of_cons; done.
        -- intros c' [->|?]%elem_of_cons; [left|right; by apply Hp'].
      * eapply Forall_impl; [exact Hps|]. intros t [? Ht]. split; [done|].
        intros c' ?. right. by apply Ht.
Qed.

(** The second piece exists exactly when the separator occurs. *)
Lemma split_segundo sep s : is_Some (str_split sep s !! 1) ↔ sep ∈ s.
Proof.
  induction s as [|c s IH]; simpl.
  - split; [by intros [? ?]|by intros []%elem_of_nil].
  - case_decide as Hc.
    + subst. split; [intros _; left|intros _].
      pose proof (split_nao_vazio sep s) as Hn.
      destruct (str_split sep s); [done|]. simpl. eauto.
    + rewrite elem_of_cons, <- IH.
      pose proof (split_nao_vazio sep s) as Hn.
      destruct (str_split sep s) as [|p ps]; [done|].
      simpl. split; [by right|]. by intros [?|?].
Qed.

Lemma split_join sep (l : list (list C)) :
  l ≠ [] → Forall (λ t, sep ∉ t) l → str_split sep (str_join sep l) = l.
Proof.
  intros Hl Hf. induction Hf as [|t l Ht Hf IH]; [done|].
  destruct l as [|t' l]; simpl.
  - by apply split_sem_sep.
  - rewrite split_app_sep by done. f_equal. by apply IH.
Qed.

Lemma str_replace_vazio_sem c s : c ∉ s → str_replace_vazio c s = s.
Proof.
  intros Hc. unfold str_replace_vazio. induction s as [|x s IH]; [done|].
  rewrite filter_cons_True by (intros ->; apply Hc; left).
  f_equal. apply IH. intros ?. apply Hc. by right.
Qed.

Lemma elem_of_str_replace_vazio c s x :
  x ∈ str_replace_vazio c s ↔ x ≠ c ∧ x ∈ s.
Proof. unfold str_replace_vazio. by rewrite list_elem_of_filter. Qed.

Lemma str_replace_vazio_app c s t :
  str_replace_vazio c (s ++ t) = str_replace_vazio c s ++ str_replace_vazio c t.
Proof. unfold str_replace_vazio. apply filter_app. Qed.

Lemma str_replace_vazio_cons_eq c s : str_replace_vazio c (c :: s) = str_replace_vazio c s.
Proof. unfold str_replace_vazio. by rewrite filter_cons_False by (by intros ?). Qed.

Lemma elem_of_join sep (l : list (list C)) x :
  x ∈ str_join sep l → x = sep ∨ ∃ t, t ∈ l ∧ x ∈ t.
Proof.
  induction l as [|t l IH]; simpl; [by intros []%elem_of_nil|].
  destruct l as [|t' l].
  - intros ?. right. exists t. split; [left|done].
  - intros [?|[->|Hx]%elem_of_cons]%elem_of_app.
    + right. exists t. split; [left|done].
    + by left.
    + destruct (IH Hx) as [?|(t0 & ? & ?)]; [by left|].
      right. exists t0. split; [by right|done].
Qed.
End Str_lemmas.

(** X16: a line [name={f1,...,fn}] followed by a newline, with at least
    one field, no ['='] in the name and no ['='], braces, comma or newline
    in the fields, is parsed into the list of its fields. *)
Theorem processa_linha_registro (nome : str) (campos : list str) :
  "="%char ∉ nome → campos ≠ [] →
  Forall (Forall (λ c, ¬ reservado c)) campos →
  processa_linha
    (nome ++ "="%char :: "{"%char :: str_join ","%char campos ++ ["}"%char; nl])
  = Some campos.
Proof.
  intros Hnome Hne Hcampos.
  assert (Hlivre : ∀ c, reservado c → c ≠ ","%char →
                        c ∉ str_join ","%char campos).
  { intros c Hres Hc [->|(t & Ht & Hin)]%elem_of_join; [done|].
    rewrite Forall_forall in Hcampos. specialize (Hcampos t Ht).
    rewrite Forall_forall in Hcampos. by apply (Hcampos c). }
  unfold processa_linha. rewrite split_app_sep by done.
  rewrite split_sem_sep.
  2:{ rewrite not_elem_of_cons, not_elem_of_app, !not_elem_of_cons.
      split; [done|]. split; [|repeat split; [done..|apply not_elem_of_nil]].
      apply Hlivre; [unfold reservado; auto|done]. }
  simpl. f_equal.
  rewrite str_replace_vazio_cons_eq.
  rewrite !str_replace_vazio_app.
  rewrite (str_replace_vazio_sem "{"%char (str_join _ _))
    by (apply Hlivre; [unfold reservado; auto|done]).
  rewrite (str_replace_vazio_sem "}"%char (str_join _ _))
    by (apply Hlivre; [unfold reservado; auto|done]).
  rewrite (str_replace_vazio_sem nl (str_join _ _))
    by (apply Hlivre; [unfold reservado; auto|done]).
  vm_compute (str_replace_vazio nl (str_replace_vazio "}"%char
                (str_replace_vazio "{"%char ["}"%char; nl]))).
  rewrite app_nil_r. apply split_join; [done|].
  eapply Forall_impl; [exact Hcampos|]. intros t Ht Hin.
  rewrite Forall_forall in Ht. apply (Ht _ Hin). unfold reservado. auto.
Qed.

Lemma processa_linha_registro_exemplo :
  processa_linha
    (["V"%char] ++ "="%char :: "{"%char ::
       str_join ","%char [["a"%char]; ["b"%char; "c"%char]] ++ ["}"%char; nl])
  = Some [["a"%char]; ["b"%char; "c"%char]].
Proof.
  apply (processa_linha_registro ["V"%char] [["a"%char]; ["b"%char; "c"%char]]).
  - nao_pertence.
  - discriminate.
  - repeat constructor; unfold reservado, nl;
      intros [?|[?|[?|[?|?]]]]; discriminate.
Defined.

Lemma processa_linha_None (linha : str) :
  processa_linha linha = None ↔ "="%char ∉ linha.
Proof.
  unfold processa_linha.
  rewrite <- split_segundo. destruct (str_split "="%char linha !! 1); simpl.
  - split; [done|]. intros []. eauto.
  - split; [|done]. by intros _ [? ?].
Qed.

(** X17: parsing a line raises [IndexError] exactly when the line has no
    ['=']; otherwise it gives at least one field, and every character of
    every field comes from the line and is none of ['='], ['{'], ['}'],
    [','] and newline. *)
Theorem processa_linha_campos (linha : str) :
  (processa_linha linha = None ↔ "="%char ∉ linha) ∧
  ∀ campos, processa_linha linha = Some campos →
    campos ≠ [] ∧
    Forall (Forall (λ c, ¬ reservado c ∧ c ∈ linha)) campos.
Proof.
  split; [apply processa_linha_None|]. unfold processa_linha.
  intros campos.
  destruct (str_split "="%char linha !! 1) as [campo|] eqn:Hc; [|done]. simpl.
  intros [= <-]. split; [apply split_nao_vazio|].
  pose proof (split_pecas "="%char linha) as Hp.
  rewrite Forall_forall in Hp.
  destruct (Hp campo) as [Heq Hin]; [by eapply list_elem_of_lookup_2|].
  eapply Forall_impl; [apply split_pecas|]. intros t [Hv Ht].
  apply Forall_forall. intros c Hct. specialize (Ht c Hct).
  apply elem_of_str_replace_vazio in Ht as [Hnl Ht].
  apply elem_of_str_replace_vazio in Ht as [Hrb Ht].
  apply elem_of_str_replace_vazio in Ht as [Hlb Ht].
  split; [|by apply Hin].
  intros [->|[->|[->|[->| ->]]]]; done.
Qed.



(** X18: when no file gets opened, because [caminho] is [None] (the
    default) or because [open] fails, [importar_txt] prints its one message
    and then raises [UnboundLocalError] from the [finally] clause, where
    [arquivo] was never bound. *)
Theorem importar_txt_sem_arquivo caminho direcionado abre :
  caminho ≫= abre = None →
  importar_txt caminho direcionado abre =
  mkResultadoTxt
    [match caminho with
     | None => ImprimeCaminhoVazio
     | Some _ => ImprimeErroArquivo
     end]
    false (Some (UnboundLocalError "arquivo")).
Proof.
  unfold importar_txt, bloco_try. destruct caminho as [c|]; simpl; [|done].
  by intros ->.
Qed.

Lemma importar_txt_sem_arquivo_padrao :
  importar_txt None false (λ _, None) =
  mkResultadoTxt [ImprimeCaminhoVazio] false
    (Some (UnboundLocalError "arquivo")).
Proof.
  apply (importar_txt_sem_arquivo None false (λ _, None)). reflexivity.
Defined.


